(** * primesieve: lookup tables and the nested prime generator

    A shallow embedding of [src/LookupTables.cpp] (the bit-extraction
    tables and the wheel factorization tables) and of
    [src/soe/PrimeNumberGenerator.cpp] (the generator of the sieving
    primes), with the properties the specification states about them.

    Unsigned machine integers are modelled as [Z] with the wrap-around
    written out where an operation can overflow; C arrays are lists,
    and an access is [nth_error], so that an out-of-bounds index shows
    as [None]. *)

From Stdlib Require Import ZArith List Lia Bool Permutation Sorted.
From ExtLib Require Import Structures.Monad Structures.MonadState Data.Monads.StateMonad.
Import ListNotations.
Local Open Scope Z_scope.

(** ** Finite ranges and arithmetic helpers *)

(** The integers [lo, lo+1, ..., lo+n-1]. *)
Definition Zrange (lo : Z) (n : nat) : list Z :=
  map (fun k => lo + Z.of_nat k) (seq 0 n).

(** [n] shares no factor with the wheel modulus [m]. *)
Definition coprimeb (m n : Z) : bool := Z.gcd n m =? 1.

(** Euler's totient, by counting. *)
Definition phi (m : Z) : Z :=
  Z.of_nat (length (filter (coprimeb m) (Zrange 1 (Z.to_nat m)))).

(** Sorting by insertion, to compare two tables up to the order of
    their entries. *)
Fixpoint insertZ (x : Z) (l : list Z) : list Z :=
  match l with
  | [] => [x]
  | y :: l' => if x <=? y then x :: l else y :: insertZ x l'
  end.

Definition sortZ (l : list Z) : list Z := fold_right insertZ [] l.

(** Equality test on the result of a table look-up. *)
Definition optZ_eqb (a b : option Z) : bool :=
  match a, b with
  | Some x, Some y => x =? y
  | None, None => true
  | _, _ => false
  end.

(** Array access with a [size_t] index. *)
Definition at_index {A} (a : list A) (i : Z) : option A :=
  if i <? 0 then None else nth_error a (Z.to_nat i).

Module LookupTables.

(** ** Bit-extraction tables *)

(** The offsets the 8 bits of a sieve byte stand for. *)
Definition byteOffsets : list Z := [7; 11; 13; 17; 19; 23; 29; 31].

Definition bitValues : list Z :=
  [
    7; 11; 13; 17; 19; 23; 29; 31;
    37; 41; 43; 47; 49; 53; 59; 61;
    67; 71; 73; 77; 79; 83; 89; 91;
    97; 101; 103; 107; 109; 113; 119; 121;
    127; 131; 133; 137; 139; 143; 149; 151;
    157; 161; 163; 167; 169; 173; 179; 181;
    187; 191; 193; 197; 199; 203; 209; 211;
    217; 221; 223; 227; 229; 233; 239; 241;
    0
  ].

Definition bruijnBitValues : list Z :=
  [
    7; 47; 11; 49; 67; 113; 13; 53;
    89; 71; 161; 101; 119; 187; 17; 233;
    59; 79; 91; 73; 133; 139; 163; 103;
    149; 121; 203; 169; 191; 217; 19; 239;
    43; 61; 109; 83; 157; 97; 181; 229;
    77; 131; 137; 143; 199; 167; 211; 41;
    107; 151; 179; 227; 127; 197; 209; 37;
    173; 223; 193; 31; 221; 29; 23; 241
  ].

(** ** Wheel factorization tables *)

(** Modelled from the spec: the declaration of [WheelInit] ([Wheel.hpp])
    is outside the two files embedded here.  An entry is the pair
    [{ offsetToNextEligible, wheelIndexOfThatEligible }]; the two
    initialisers of the tables below are taken in that order. *)
Record WheelInit := WI {
  offsetToNextEligible : Z;
  wheelIndexOfThatEligible : Z
}.

(** Modelled from the spec: the bit constants [BIT0] .. [BIT7]
    ([bits.hpp]) are outside the two files embedded here.  [BITk] is
    the mask kept in a table entry to clear bit [k] of a sieve byte;
    it is modelled by naming the bit. *)
Inductive BitMask := BIT0 | BIT1 | BIT2 | BIT3 | BIT4 | BIT5 | BIT6 | BIT7.

Definition bitOf (b : BitMask) : Z :=
  match b with
  | BIT0 => 0 | BIT1 => 1 | BIT2 => 2 | BIT3 => 3
  | BIT4 => 4 | BIT5 => 5 | BIT6 => 6 | BIT7 => 7
  end.

(** Modelled from the spec: the declaration of [WheelElement]
    ([Wheel.hpp]) is outside the two files embedded here.  The four
    initialisers of an entry are, in order: the mask of the bit to
    clear, the distance to the next multiple in units of the prime,
    the byte correction that goes with it, and the table index of the
    state the prime moves to.  That the entries of both tables play
    these roles is checked entry by entry ([wheel_step] below). *)
Record WheelElement := WE {
  unsetBit : BitMask;
  nextMultipleFactor : Z;
  correct : Z;
  next : Z
}.

Definition wheel30Init : list WheelInit :=
  [
    WI 1 0; WI 0 0; WI 5 1; WI 4 1; WI 3 1; WI 2 1; WI 1 1; WI 0 1;
    WI 3 2; WI 2 2; WI 1 2; WI 0 2; WI 1 3; WI 0 3; WI 3 4; WI 2 4;
    WI 1 4; WI 0 4; WI 1 5; WI 0 5; WI 3 6; WI 2 6; WI 1 6; WI 0 6;
    WI 5 7; WI 4 7; WI 3 7; WI 2 7; WI 1 7; WI 0 7
  ].

Definition wheel210Init : list WheelInit :=
  [
    WI 1 0; WI 0 0; WI 9 1; WI 8 1; WI 7 1; WI 6 1; WI 5 1; WI 4 1;
    WI 3 1; WI 2 1; WI 1 1; WI 0 1; WI 1 2; WI 0 2; WI 3 3; WI 2 3;
    WI 1 3; WI 0 3; WI 1 4; WI 0 4; WI 3 5; WI 2 5; WI 1 5; WI 0 5;
    WI 5 6; WI 4 6; WI 3 6; WI 2 6; WI 1 6; WI 0 6; WI 1 7; WI 0 7;
    WI 5 8; WI 4 8; WI 3 8; WI 2 8; WI 1 8; WI 0 8; WI 3 9; WI 2 9;
    WI 1 9; WI 0 9; WI 1 10; WI 0 10; WI 3 11; WI 2 11; WI 1 11; WI 0 11;
    WI 5 12; WI 4 12; WI 3 12; WI 2 12; WI 1 12; WI 0 12; WI 5 13; WI 4 13;
    WI 3 13; WI 2 13; WI 1 13; WI 0 13; WI 1 14; WI 0 14; WI 5 15; WI 4 15;
    WI 3 15; WI 2 15; WI 1 15; WI 0 15; WI 3 16; WI 2 16; WI 1 16; WI 0 16;
    WI 1 17; WI 0 17; WI 5 18; WI 4 18; WI 3 18; WI 2 18; WI 1 18; WI 0 18;
    WI 3 19; WI 2 19; WI 1 19; WI 0 19; WI 5 20; WI 4 20; WI 3 20; WI 2 20;
    WI 1 20; WI 0 20; WI 7 21; WI 6 21; WI 5 21; WI 4 21; WI 3 21; WI 2 21;
    WI 1 21; WI 0 21; WI 3 22; WI 2 22; WI 1 22; WI 0 22; WI 1 23; WI 0 23;
    WI 3 24; WI 2 24; WI 1 24; WI 0 24; WI 1 25; WI 0 25; WI 3 26; WI 2 26;
    WI 1 26; WI 0 26; WI 7 27; WI 6 27; WI 5 27; WI 4 27; WI 3 27; WI 2 27;
    WI 1 27; WI 0 27; WI 5 28; WI 4 28; WI 3 28; WI 2 28; WI 1 28; WI 0 28;
    WI 3 29; WI 2 29; WI 1 29; WI 0 29; WI 5 30; WI 4 30; WI 3 30; WI 2 30;
    WI 1 30; WI 0 30; WI 1 31; WI 0 31; WI 3 32; WI 2 32; WI 1 32; WI 0 32;
    WI 5 33; WI 4 33; WI 3 33; WI 2 33; WI 1 33; WI 0 33; WI 1 34; WI 0 34;
    WI 5 35; WI 4 35; WI 3 35; WI 2 35; WI 1 35; WI 0 35; WI 5 36; WI 4 36;
    WI 3 36; WI 2 36; WI 1 36; WI 0 36; WI 3 37; WI 2 37; WI 1 37; WI 0 37;
    WI 1 38; WI 0 38; WI 3 39; WI 2 39; WI 1 39; WI 0 39; WI 5 40; WI 4 40;
    WI 3 40; WI 2 40; WI 1 40; WI 0 40; WI 1 41; WI 0 41; WI 5 42; WI 4 42;
    WI 3 42; WI 2 42; WI 1 42; WI 0 42; WI 3 43; WI 2 43; WI 1 43; WI 0 43;
    WI 1 44; WI 0 44; WI 3 45; WI 2 45; WI 1 45; WI 0 45; WI 1 46; WI 0 46;
    WI 9 47; WI 8 47; WI 7 47; WI 6 47; WI 5 47; WI 4 47; WI 3 47; WI 2 47;
    WI 1 47; WI 0 47
  ].

Definition wheel30 : list WheelElement :=
  [
    WE BIT0 6 1 1; WE BIT4 4 1 2; WE BIT3 2 0 3; WE BIT7 4 1 4; WE BIT6 2 1 5; WE BIT2 4 1 6; WE BIT1 6 1 7; WE BIT5 2 1 0;
    WE BIT1 6 2 9; WE BIT3 4 1 10; WE BIT7 2 1 11; WE BIT5 4 2 12; WE BIT0 2 0 13; WE BIT6 4 2 14; WE BIT2 6 2 15; WE BIT4 2 1 8;
    WE BIT2 6 2 17; WE BIT7 4 2 18; WE BIT5 2 1 19; WE BIT4 4 2 20; WE BIT1 2 1 21; WE BIT0 4 1 22; WE BIT6 6 3 23; WE BIT3 2 1 16;
    WE BIT3 6 3 25; WE BIT6 4 3 26; WE BIT0 2 1 27; WE BIT1 4 2 28; WE BIT4 2 1 29; WE BIT5 4 2 30; WE BIT7 6 4 31; WE BIT2 2 1 24;
    WE BIT4 6 4 33; WE BIT2 4 2 34; WE BIT6 2 2 35; WE BIT0 4 2 36; WE BIT5 2 1 37; WE BIT7 4 3 38; WE BIT3 6 4 39; WE BIT1 2 1 32;
    WE BIT5 6 5 41; WE BIT1 4 3 42; WE BIT2 2 1 43; WE BIT6 4 3 44; WE BIT7 2 2 45; WE BIT3 4 3 46; WE BIT4 6 5 47; WE BIT0 2 1 40;
    WE BIT6 6 6 49; WE BIT5 4 4 50; WE BIT4 2 2 51; WE BIT3 4 4 52; WE BIT2 2 2 53; WE BIT1 4 4 54; WE BIT0 6 5 55; WE BIT7 2 2 48;
    WE BIT7 6 1 57; WE BIT0 4 0 58; WE BIT1 2 0 59; WE BIT2 4 0 60; WE BIT3 2 0 61; WE BIT4 4 0 62; WE BIT5 6 0 63; WE BIT6 2 0 56
  ].

Definition wheel210 : list WheelElement :=
  [
    WE BIT0 10 2 1; WE BIT3 2 0 2; WE BIT7 4 1 3; WE BIT6 2 1 4; WE BIT2 4 1 5; WE BIT1 6 1 6; WE BIT5 2 1 7; WE BIT0 6 1 8;
    WE BIT4 4 1 9; WE BIT3 2 0 10; WE BIT7 4 1 11; WE BIT6 6 2 12; WE BIT1 6 1 13; WE BIT5 2 1 14; WE BIT0 6 1 15; WE BIT4 4 1 16;
    WE BIT3 2 0 17; WE BIT7 6 2 18; WE BIT2 4 1 19; WE BIT1 6 1 20; WE BIT5 8 2 21; WE BIT4 4 1 22; WE BIT3 2 0 23; WE BIT7 4 1 24;
    WE BIT6 2 1 25; WE BIT2 4 1 26; WE BIT1 8 2 27; WE BIT0 6 1 28; WE BIT4 4 1 29; WE BIT3 6 1 30; WE BIT6 2 1 31; WE BIT2 4 1 32;
    WE BIT1 6 1 33; WE BIT5 2 1 34; WE BIT0 6 1 35; WE BIT4 6 1 36; WE BIT7 4 1 37; WE BIT6 2 1 38; WE BIT2 4 1 39; WE BIT1 6 1 40;
    WE BIT5 2 1 41; WE BIT0 6 1 42; WE BIT4 4 1 43; WE BIT3 2 0 44; WE BIT7 4 1 45; WE BIT6 2 1 46; WE BIT2 10 2 47; WE BIT5 2 1 0;
    WE BIT1 10 3 49; WE BIT7 2 1 50; WE BIT5 4 2 51; WE BIT0 2 0 52; WE BIT6 4 2 53; WE BIT2 6 2 54; WE BIT4 2 1 55; WE BIT1 6 2 56;
    WE BIT3 4 1 57; WE BIT7 2 1 58; WE BIT5 4 2 59; WE BIT0 6 2 60; WE BIT2 6 2 61; WE BIT4 2 1 62; WE BIT1 6 2 63; WE BIT3 4 1 64;
    WE BIT7 2 1 65; WE BIT5 6 2 66; WE BIT6 4 2 67; WE BIT2 6 2 68; WE BIT4 8 3 69; WE BIT3 4 1 70; WE BIT7 2 1 71; WE BIT5 4 2 72;
    WE BIT0 2 0 73; WE BIT6 4 2 74; WE BIT2 8 3 75; WE BIT1 6 2 76; WE BIT3 4 1 77; WE BIT7 6 3 78; WE BIT0 2 0 79; WE BIT6 4 2 80;
    WE BIT2 6 2 81; WE BIT4 2 1 82; WE BIT1 6 2 83; WE BIT3 6 2 84; WE BIT5 4 2 85; WE BIT0 2 0 86; WE BIT6 4 2 87; WE BIT2 6 2 88;
    WE BIT4 2 1 89; WE BIT1 6 2 90; WE BIT3 4 1 91; WE BIT7 2 1 92; WE BIT5 4 2 93; WE BIT0 2 0 94; WE BIT6 10 4 95; WE BIT4 2 1 48;
    WE BIT2 10 4 97; WE BIT5 2 1 98; WE BIT4 4 2 99; WE BIT1 2 1 100; WE BIT0 4 1 101; WE BIT6 6 3 102; WE BIT3 2 1 103; WE BIT2 6 2 104;
    WE BIT7 4 2 105; WE BIT5 2 1 106; WE BIT4 4 2 107; WE BIT1 6 2 108; WE BIT6 6 3 109; WE BIT3 2 1 110; WE BIT2 6 2 111; WE BIT7 4 2 112;
    WE BIT5 2 1 113; WE BIT4 6 3 114; WE BIT0 4 1 115; WE BIT6 6 3 116; WE BIT3 8 3 117; WE BIT7 4 2 118; WE BIT5 2 1 119; WE BIT4 4 2 120;
    WE BIT1 2 1 121; WE BIT0 4 1 122; WE BIT6 8 4 123; WE BIT2 6 2 124; WE BIT7 4 2 125; WE BIT5 6 3 126; WE BIT1 2 1 127; WE BIT0 4 1 128;
    WE BIT6 6 3 129; WE BIT3 2 1 130; WE BIT2 6 2 131; WE BIT7 6 3 132; WE BIT4 4 2 133; WE BIT1 2 1 134; WE BIT0 4 1 135; WE BIT6 6 3 136;
    WE BIT3 2 1 137; WE BIT2 6 2 138; WE BIT7 4 2 139; WE BIT5 2 1 140; WE BIT4 4 2 141; WE BIT1 2 1 142; WE BIT0 10 4 143; WE BIT3 2 1 96;
    WE BIT3 10 6 145; WE BIT0 2 1 146; WE BIT1 4 2 147; WE BIT4 2 1 148; WE BIT5 4 2 149; WE BIT7 6 4 150; WE BIT2 2 1 151; WE BIT3 6 3 152;
    WE BIT6 4 3 153; WE BIT0 2 1 154; WE BIT1 4 2 155; WE BIT4 6 3 156; WE BIT7 6 4 157; WE BIT2 2 1 158; WE BIT3 6 3 159; WE BIT6 4 3 160;
    WE BIT0 2 1 161; WE BIT1 6 3 162; WE BIT5 4 2 163; WE BIT7 6 4 164; WE BIT2 8 4 165; WE BIT6 4 3 166; WE BIT0 2 1 167; WE BIT1 4 2 168;
    WE BIT4 2 1 169; WE BIT5 4 2 170; WE BIT7 8 5 171; WE BIT3 6 3 172; WE BIT6 4 3 173; WE BIT0 6 3 174; WE BIT4 2 1 175; WE BIT5 4 2 176;
    WE BIT7 6 4 177; WE BIT2 2 1 178; WE BIT3 6 3 179; WE BIT6 6 4 180; WE BIT1 4 2 181; WE BIT4 2 1 182; WE BIT5 4 2 183; WE BIT7 6 4 184;
    WE BIT2 2 1 185; WE BIT3 6 3 186; WE BIT6 4 3 187; WE BIT0 2 1 188; WE BIT1 4 2 189; WE BIT4 2 1 190; WE BIT5 10 6 191; WE BIT2 2 1 144;
    WE BIT4 10 6 193; WE BIT6 2 2 194; WE BIT0 4 2 195; WE BIT5 2 1 196; WE BIT7 4 3 197; WE BIT3 6 4 198; WE BIT1 2 1 199; WE BIT4 6 4 200;
    WE BIT2 4 2 201; WE BIT6 2 2 202; WE BIT0 4 2 203; WE BIT5 6 4 204; WE BIT3 6 4 205; WE BIT1 2 1 206; WE BIT4 6 4 207; WE BIT2 4 2 208;
    WE BIT6 2 2 209; WE BIT0 6 3 210; WE BIT7 4 3 211; WE BIT3 6 4 212; WE BIT1 8 5 213; WE BIT2 4 2 214; WE BIT6 2 2 215; WE BIT0 4 2 216;
    WE BIT5 2 1 217; WE BIT7 4 3 218; WE BIT3 8 5 219; WE BIT4 6 4 220; WE BIT2 4 2 221; WE BIT6 6 4 222; WE BIT5 2 1 223; WE BIT7 4 3 224;
    WE BIT3 6 4 225; WE BIT1 2 1 226; WE BIT4 6 4 227; WE BIT2 6 4 228; WE BIT0 4 2 229; WE BIT5 2 1 230; WE BIT7 4 3 231; WE BIT3 6 4 232;
    WE BIT1 2 1 233; WE BIT4 6 4 234; WE BIT2 4 2 235; WE BIT6 2 2 236; WE BIT0 4 2 237; WE BIT5 2 1 238; WE BIT7 10 7 239; WE BIT1 2 1 192;
    WE BIT5 10 8 241; WE BIT2 2 1 242; WE BIT6 4 3 243; WE BIT7 2 2 244; WE BIT3 4 3 245; WE BIT4 6 5 246; WE BIT0 2 1 247; WE BIT5 6 5 248;
    WE BIT1 4 3 249; WE BIT2 2 1 250; WE BIT6 4 3 251; WE BIT7 6 5 252; WE BIT4 6 5 253; WE BIT0 2 1 254; WE BIT5 6 5 255; WE BIT1 4 3 256;
    WE BIT2 2 1 257; WE BIT6 6 5 258; WE BIT3 4 3 259; WE BIT4 6 5 260; WE BIT0 8 6 261; WE BIT1 4 3 262; WE BIT2 2 1 263; WE BIT6 4 3 264;
    WE BIT7 2 2 265; WE BIT3 4 3 266; WE BIT4 8 6 267; WE BIT5 6 5 268; WE BIT1 4 3 269; WE BIT2 6 4 270; WE BIT7 2 2 271; WE BIT3 4 3 272;
    WE BIT4 6 5 273; WE BIT0 2 1 274; WE BIT5 6 5 275; WE BIT1 6 4 276; WE BIT6 4 3 277; WE BIT7 2 2 278; WE BIT3 4 3 279; WE BIT4 6 5 280;
    WE BIT0 2 1 281; WE BIT5 6 5 282; WE BIT1 4 3 283; WE BIT2 2 1 284; WE BIT6 4 3 285; WE BIT7 2 2 286; WE BIT3 10 8 287; WE BIT0 2 1 240;
    WE BIT6 10 10 289; WE BIT4 2 2 290; WE BIT3 4 4 291; WE BIT2 2 2 292; WE BIT1 4 4 293; WE BIT0 6 5 294; WE BIT7 2 2 295; WE BIT6 6 6 296;
    WE BIT5 4 4 297; WE BIT4 2 2 298; WE BIT3 4 4 299; WE BIT2 6 6 300; WE BIT0 6 5 301; WE BIT7 2 2 302; WE BIT6 6 6 303; WE BIT5 4 4 304;
    WE BIT4 2 2 305; WE BIT3 6 6 306; WE BIT1 4 4 307; WE BIT0 6 5 308; WE BIT7 8 8 309; WE BIT5 4 4 310; WE BIT4 2 2 311; WE BIT3 4 4 312;
    WE BIT2 2 2 313; WE BIT1 4 4 314; WE BIT0 8 7 315; WE BIT6 6 6 316; WE BIT5 4 4 317; WE BIT4 6 6 318; WE BIT2 2 2 319; WE BIT1 4 4 320;
    WE BIT0 6 5 321; WE BIT7 2 2 322; WE BIT6 6 6 323; WE BIT5 6 6 324; WE BIT3 4 4 325; WE BIT2 2 2 326; WE BIT1 4 4 327; WE BIT0 6 5 328;
    WE BIT7 2 2 329; WE BIT6 6 6 330; WE BIT5 4 4 331; WE BIT4 2 2 332; WE BIT3 4 4 333; WE BIT2 2 2 334; WE BIT1 10 9 335; WE BIT7 2 2 288;
    WE BIT7 10 1 337; WE BIT1 2 0 338; WE BIT2 4 0 339; WE BIT3 2 0 340; WE BIT4 4 0 341; WE BIT5 6 0 342; WE BIT6 2 0 343; WE BIT7 6 1 344;
    WE BIT0 4 0 345; WE BIT1 2 0 346; WE BIT2 4 0 347; WE BIT3 6 0 348; WE BIT5 6 0 349; WE BIT6 2 0 350; WE BIT7 6 1 351; WE BIT0 4 0 352;
    WE BIT1 2 0 353; WE BIT2 6 0 354; WE BIT4 4 0 355; WE BIT5 6 0 356; WE BIT6 8 1 357; WE BIT0 4 0 358; WE BIT1 2 0 359; WE BIT2 4 0 360;
    WE BIT3 2 0 361; WE BIT4 4 0 362; WE BIT5 8 0 363; WE BIT7 6 1 364; WE BIT0 4 0 365; WE BIT1 6 0 366; WE BIT3 2 0 367; WE BIT4 4 0 368;
    WE BIT5 6 0 369; WE BIT6 2 0 370; WE BIT7 6 1 371; WE BIT0 6 0 372; WE BIT2 4 0 373; WE BIT3 2 0 374; WE BIT4 4 0 375; WE BIT5 6 0 376;
    WE BIT6 2 0 377; WE BIT7 6 1 378; WE BIT0 4 0 379; WE BIT1 2 0 380; WE BIT2 4 0 381; WE BIT3 2 0 382; WE BIT4 10 0 383; WE BIT6 2 0 336
  ].

End LookupTables.

Module Bits.
Import LookupTables.

(** ** Bit scanning *)

Definition UINT32_MAX : Z := 2 ^ 32 - 1.
Definition UINT64_MAX : Z := 2 ^ 64 - 1.

(** A value of type [uint64_t]. *)
Definition isWord64 (w : Z) : Prop := 0 <= w <= UINT64_MAX.

(** Number of trailing zero bits of a positive number. *)
Fixpoint pos_ctz (p : positive) : Z :=
  match p with
  | xO q => 1 + pos_ctz q
  | _ => 0
  end.

(** Modelled from the spec: the bit-scan helper ([bits.hpp]) is
    outside the two files embedded here.  [scanLowestSetBit] returns
    the index of the lowest set bit of a 64-bit word, and 64 (the
    sentinel) if no bit is set in the scanned word. *)
Definition scanLowestSetBit (w : Z) : Z :=
  match w with
  | Zpos p => pos_ctz p
  | _ => 64
  end.

(** [bits &= bits - 1] on [uint64_t]: clears the lowest set bit. *)
Definition clearLowestSetBit (bits : Z) : Z :=
  Z.land bits ((bits - 1) mod 2 ^ 64).

(** Modelled from the spec: the hash of the De Bruijn bit scan, the
    portable fallback of the bit-scan instruction, is outside the two
    files embedded here.  [LookupTables.cpp] refers to the De Bruijn
    multiplication of the chess programming wiki, whose 64-bit variant
    hashes the word [bits ^ (bits - 1)] by a multiplication and a
    shift by 58.  The multiplier below is the constant for which
    [bruijnBitValues] is laid out ([bruijnIndex_bitValues] below). *)
Definition debruijn64 : Z := 0x3F08A4C6ACB9DBD.

Definition bruijnIndex (bits : Z) : Z :=
  Z.shiftr ((Z.lxor bits ((bits - 1) mod 2 ^ 64) * debruijn64) mod 2 ^ 64) 58.

(** The entry of [bitValues] at [i], 0 outside of the table. *)
Definition tableValue (i : Z) : Z :=
  match at_index bitValues i with
  | Some v => v
  | None => 0
  end.

(** The indices of the set bits of a 64-bit word, lowest first. *)
Definition setBits (w : Z) : list Z := filter (Z.testbit w) (Zrange 0 64).

(** The value of the lowest set bit of [bits], through the bit-scan
    instruction and [bitValues] ... *)
Definition nextPrime (bits low : Z) : option Z :=
  option_map (Z.add low) (at_index bitValues (scanLowestSetBit bits)).

(** ... and through the De Bruijn hash and [bruijnBitValues]. *)
Definition nextPrimeBruijn (bits low : Z) : option Z :=
  option_map (Z.add low) (at_index bruijnBitValues (bruijnIndex bits)).

(** Modelled from the spec (section 4.4, step 3): repeatedly take the
    lowest set bit of the word, map it through the extraction table to
    [segmentLow + tableValue], clear that bit, until the word is
    exhausted, which the sentinel tells.  A word has 64 bits, so 64
    rounds exhaust it. *)
Fixpoint extractWord (fuel : nat) (low bits : Z) : list Z :=
  match fuel with
  | O => []
  | S fuel' =>
      if scanLowestSetBit bits =? 64 then []
      else match nextPrime bits low with
           | Some p => p :: extractWord fuel' low (clearLowestSetBit bits)
           | None => []
           end
  end.

End Bits.

Module Wheel.
Import LookupTables.

(** ** Reading the wheel tables *)

(** The residues of the wheel of modulus [m], in increasing order. *)
Definition wheelResidues (m : Z) : list Z :=
  filter (coprimeb m) (Zrange 1 (Z.to_nat m)).

(** Position of [x] in a list. *)
Fixpoint indexOf (x : Z) (l : list Z) : option Z :=
  match l with
  | [] => None
  | y :: l' => if x =? y then Some 0 else option_map Z.succ (indexOf x l')
  end.

(** The table a starting value is aligned with: [wheelInit[n % m]]. *)
Definition initFor (m : Z) (table : list WheelInit) (n : Z) : option WheelInit :=
  at_index table (n mod m).

(** The state a prime moves to from the state [i] of a wheel table. *)
Definition transition (wheel : list WheelElement) (i : Z) : option WheelElement :=
  at_index wheel i.

(** The states visited by [n] successive transitions from [i], [i]
    itself first. *)
Fixpoint orbit (wheel : list WheelElement) (n : nat) (i : Z) : list Z :=
  match n with
  | O => []
  | S n' =>
      i :: match transition wheel i with
           | Some e => orbit wheel n' (next e)
           | None => []
           end
  end.

(** The factors visited along the same transitions: the first one is
    [r], and each transition adds its [nextMultipleFactor]. *)
Fixpoint factors (wheel : list WheelElement) (n : nat) (i r : Z) : list Z :=
  match n with
  | O => []
  | S n' =>
      r :: match transition wheel i with
           | Some e => factors wheel n' (next e) (r + nextMultipleFactor e)
           | None => []
           end
  end.

(** Number of transitions after which the state [start] is reached
    again for the first time, looking at most [fuel] transitions
    ahead of [cur]. *)
Fixpoint stepsToReturn (wheel : list WheelElement) (fuel : nat) (start cur : Z)
  : option Z :=
  match fuel with
  | O => None
  | S fuel' =>
      match transition wheel cur with
      | Some e =>
          if next e =? start then Some 1
          else option_map Z.succ (stepsToReturn wheel fuel' start (next e))
      | None => None
      end
  end.

(** Length of the cycle through [start]. *)
Definition cycleLength (wheel : list WheelElement) (start : Z) : option Z :=
  stepsToReturn wheel (length wheel) start start.

(** The table index of the pair (bit position, wheel index): a table
    has one row per bit position and one column per wheel index. *)
Definition stateIndex (m bitPosition wheelIndex : Z) : Z :=
  bitPosition * phi m + wheelIndex.

(** The byte and the bit of the sieve array that stand for the value
    [n]: a byte spans 30 integers, its bits the offsets 7 .. 31. *)
Definition byteIndex (n : Z) : Z := (n - 7) / 30.

Definition bitIndexOf (n : Z) : option Z :=
  indexOf (n mod 30) (map (fun o => o mod 30) byteOffsets).

(** The wheel index of the residue class of [q]. *)
Definition wheelIndexOf (m q : Z) : option Z :=
  indexOf (q mod m) (wheelResidues m).

(** What is checked of the entry of a wheel table for a prime of
    residue [rp] modulo 30 and a factor of residue [rq] modulo [m]. *)
Definition stepChecked (m : Z) (wheel : list WheelElement) (rp rq : Z) : bool :=
  if coprimeb 30 rp && coprimeb m rq then
    match bitIndexOf rp, wheelIndexOf m rq with
    | Some b, Some k =>
        match transition wheel (stateIndex m b k) with
        | Some e =>
            let f := nextMultipleFactor e in
            optZ_eqb (bitIndexOf (rp * rq)) (Some (bitOf (unsetBit e)))
            && (0 <? f)
            && coprimeb m (rq + f)
            && forallb (fun x => negb (coprimeb m x)) (Zrange (rq + 1) (Z.to_nat (f - 1)))
            && (((rp * rq - 7) mod 30 + rp * f) / 30 =? correct e)
            && match wheelIndexOf m (rq + f) with
               | Some k' => next e =? stateIndex m b k'
               | None => false
               end
        | None => false
        end
    | _, _ => false
    end
  else true.

(** Modelled from the spec (section 4.3): one crossing-off step of a
    sieving prime, after the bit of its current multiple is cleared:
    the byte offset advances by the table entry scaled by the prime,
    here [sievingPrime], the prime divided by 30, and the state moves
    on to the entry's next state. *)
Definition crossOffStep (wheel : list WheelElement) (sievingPrime : Z)
    (st : Z * Z) : option (Z * Z) :=
  let (multipleIndex, i) := st in
  match transition wheel i with
  | Some e =>
      Some (multipleIndex + nextMultipleFactor e * sievingPrime + correct e, next e)
  | None => None
  end.

(** The crossing-off step, [n] times over. *)
Fixpoint crossOffSteps (wheel : list WheelElement) (sievingPrime : Z)
    (n : nat) (st : Z * Z) : option (Z * Z) :=
  match n with
  | O => Some st
  | S n' =>
      match crossOffStep wheel sievingPrime st with
      | Some st' => crossOffSteps wheel sievingPrime n' st'
      | None => None
      end
  end.

(** The factor reached by [n] transitions from the state [i] and the
    factor [q]: each transition adds its [nextMultipleFactor]. *)
Fixpoint factorAfter (wheel : list WheelElement) (n : nat) (i q : Z) : option Z :=
  match n with
  | O => Some q
  | S n' =>
      match transition wheel i with
      | Some e => factorAfter wheel n' (next e) (q + nextMultipleFactor e)
      | None => None
      end
  end.

(** The primes whose multiples a wheel of modulus [m] leaves out:
    2, 3 and 5, and 7 as well for the modulus 210. *)
Definition wheelPrimes (m : Z) : list Z :=
  filter (fun d => m mod d =? 0) [2; 3; 5; 7].

End Wheel.

Module SieveOfEratosthenes.

(** ** The base class of the generator *)

(** How a constructor ends. *)
Inductive Construction (A : Type) : Type :=
| Constructed (a : A)
| ConfigurationViolation
| AssertionFailure.
Arguments Constructed {A} a.
Arguments ConfigurationViolation {A}.
Arguments AssertionFailure {A}.

(** Modelled from the spec: the class [SieveOfEratosthenes]
    ([SieveOfEratosthenes.h]) is outside the two files embedded here.
    Its construction parameters are [startNumber], [stopNumber],
    [sieveSize] (in bytes) and [preSieveLimit]; [segmentLow] is the
    lower bound of the segment being sieved. *)
Record t := mk {
  startNumber : Z;
  stopNumber : Z;
  sieveSize : Z;
  preSieveLimit : Z;
  segmentLow : Z
}.

Definition getStartNumber (s : t) : Z := startNumber s.
Definition getStopNumber (s : t) : Z := stopNumber s.
Definition getSieveSize (s : t) : Z := sieveSize s.
Definition getPreSieveLimit (s : t) : Z := preSieveLimit s.
Definition getSegmentLow (s : t) : Z := segmentLow s.

Definition isPowerOf2 (x : Z) : bool :=
  (0 <? x) && (Z.land x (x - 1) =? 0).

(** Modelled from the spec (section 4.4): the first wheel-eligible
    value at or above the lower bound of the range, found through
    [wheel30Init]. *)
Definition firstEligible (start : Z) : Z :=
  match at_index LookupTables.wheel30Init (start mod 30) with
  | Some e => start + LookupTables.offsetToNextEligible e
  | None => start
  end.

(** Modelled from the spec (section 4.4) and the layout of
    [LookupTables.cpp]: the first segment covers the first
    wheel-eligible value at or above [startNumber].  The bits of a
    byte stand for the values [30 k + 7 .. 30 k + 31], and a value is
    extracted as [segmentLow + bitValues[i]], so the lower bound of a
    segment is the multiple [30 k] of the first byte, the byte 0 at
    the least. *)
Definition firstSegmentLow (start : Z) : Z :=
  30 * Z.max 0 (Wheel.byteIndex (firstEligible start)).

(** Modelled from the spec (section 7): a configuration violation, that
    is start > stop, a stop bound that exceeds the integer width (64
    bits for this class) or a sieve size that is not a power of two,
    fails fast at construction; otherwise the parameters are kept as
    they are given. *)
Definition new (start stop size preSieve : Z) : Construction t :=
  if (stop <? start) || (Bits.UINT64_MAX <? stop) || negb (isPowerOf2 size)
  then ConfigurationViolation
  else Constructed (mk start stop size preSieve (firstSegmentLow start)).

End SieveOfEratosthenes.

Module PrimeNumberGenerator.
Import LookupTables Bits SieveOfEratosthenes.
Import MonadNotation.
Local Open Scope monad_scope.

(** ** PrimeNumberGenerator.cpp *)

(** The constants of [defs.h] the constructor reads; the header is
    outside the two files embedded here, so they are parameters of the
    model. *)
Record Defs := mkDefs {
  PRIMENUMBERGENERATOR_SIEVESIZE : Z;
  PRIMENUMBERGENERATOR_PRESIEVE_LIMIT : Z
}.

(** The outer sieve, as far as the generator uses it: its base object
    and the primes its [sieve] operation has been called with, in the
    order of the calls. *)
Record PrimeNumberFinder := mkFinder {
  finderBase : SieveOfEratosthenes.t;
  sievingPrimes : list Z
}.

(** What the generator can act on: the finder it holds a reference to
    and the primes handed to the external consumer. *)
Record World := mkWorld {
  primeNumberFinder_ : PrimeNumberFinder;
  consumed : list Z
}.

(** Modelled from the spec: [isqrt] ([imath.h]) is the integer square
    root. *)
Definition isqrt (n : Z) : Z := Z.sqrt n.

(** Modelled from the spec: [nextHighestPowerOf2] ([bithacks.h]) rounds
    a sieve size up to a power of two. *)
Definition nextHighestPowerOf2 (x : Z) : Z := 2 ^ Z.log2_up x.

Record t := mk {
  base : SieveOfEratosthenes.t
}.

(** The constructor: the base object is built from the finder, then
    the assertion on the stop number is checked (assertions are taken
    to be compiled in). *)
Definition new (defs : Defs) (f : PrimeNumberFinder) : Construction t :=
  match SieveOfEratosthenes.new
          (getPreSieveLimit (finderBase f) + 1)
          (isqrt (getStopNumber (finderBase f)))
          (nextHighestPowerOf2 (PRIMENUMBERGENERATOR_SIEVESIZE defs * 1024))
          (PRIMENUMBERGENERATOR_PRESIEVE_LIMIT defs) with
  | Constructed b =>
      if getStopNumber b <=? UINT32_MAX then Constructed (mk b)
      else AssertionFailure
  | ConfigurationViolation => ConfigurationViolation
  | AssertionFailure => AssertionFailure
  end.

(** Modelled from the spec: [sieve(prime)] of the outer finder
    registers [prime] as a newly active prime of the outer engine. *)
Definition finderSieve (prime : Z) : state World unit :=
  w <- get ;;
  put (mkWorld (mkFinder (finderBase (primeNumberFinder_ w))
                         (sievingPrimes (primeNumberFinder_ w) ++ [prime]))
               (consumed w)).

(** The world after the finder has taken the primes [ps], in turn. *)
Definition fed (w : World) (ps : list Z) : World :=
  mkWorld (mkFinder (finderBase (primeNumberFinder_ w)) (sievingPrimes (primeNumberFinder_ w) ++ ps))
          (consumed w).

(** The operation of the external consumer: accept one prime value. *)
Definition consumerAccept (prime : Z) : state World unit :=
  w <- get ;;
  put (mkWorld (primeNumberFinder_ w) (consumed w ++ [prime])).

(** The 64-bit word made of the bytes [8 j .. 8 j + 7] of the sieve
    array, first byte lowest. *)
Definition sieveWord (sieve : list Z) (j : nat) : Z :=
  fold_right (fun b acc => b + 256 * acc) 0 (firstn 8 (skipn (8 * j) sieve)).

(** The bit-extraction loop over one word, calling [callback] on each
    value as it is extracted. *)
Fixpoint extractLoop (callback : Z -> state World unit) (width : Z)
    (fuel : nat) (low bits : Z) : state World unit :=
  match fuel with
  | O => ret tt
  | S fuel' =>
      if scanLowestSetBit bits =? 64 then ret tt
      else match nextPrime bits low with
           | Some p =>
               callback (p mod 2 ^ width) ;;
               extractLoop callback width fuel' low (clearLowestSetBit bits)
           | None => ret tt
           end
  end.

(** The words [j, j+1, ..., j+n-1] of the sieve array, in turn. *)
Fixpoint wordLoop (callback : Z -> state World unit) (width : Z)
    (lowerBound : Z) (sieve : list Z) (n j : nat) : state World unit :=
  match n with
  | O => ret tt
  | S n' =>
      extractLoop callback width 64 (lowerBound + 240 * Z.of_nat j) (sieveWord sieve j) ;;
      wordLoop callback width lowerBound sieve n' (S j)
  end.

(** Modelled from the spec (section 4.4, step 3): the macro
    [GENERATE_PRIMES(callback, uintXX_t)] of [defs.h] is outside the
    two files embedded here.  It scans the words of [sieve], and calls
    [callback] on the value of each set bit, an integer of [width]
    bits, as it is found. *)
Definition GENERATE_PRIMES (callback : Z -> state World unit) (width : Z)
    (lowerBound : Z) (sieve : list Z) (sieveSize : Z) : state World unit :=
  wordLoop callback width lowerBound (firstn (Z.to_nat sieveSize) sieve)
           (Z.to_nat (sieveSize / 8)) 0.

Definition generate (g : t) (sieve : list Z) (sieveSize : Z) : state World unit :=
  let lowerBound := getSegmentLow (base g) mod 2 ^ 32 in
  GENERATE_PRIMES finderSieve 32 lowerBound sieve sieveSize.

Definition analyseSieve (g : t) (sieve : list Z) (sieveSize : Z) : state World unit :=
  generate g sieve sieveSize.

(** A configuration for the examples: a generator sieve of 16
    kilobytes with pre-sieve limit 13, and an outer finder over
    [0, stop] with a sieve of 32 kilobytes and pre-sieve limit 19. *)
Definition exampleDefs : Defs := mkDefs 16 13.

Definition exampleFinder (stop : Z) : PrimeNumberFinder :=
  mkFinder (SieveOfEratosthenes.mk 0 stop 32768 19 0) [].

(** Primality by trial division. *)
Definition isPrime (n : Z) : bool :=
  (1 <? n) && forallb (fun d => negb (n mod d =? 0)) (Zrange 2 (Z.to_nat (n - 2))).

(** Modelled from the spec (sections 4.4 and 8): the sieving engine is
    outside the two files embedded here.  A generator delivers the
    primes of its sieving range [startNumber .. stopNumber], in
    increasing order, as trial division finds them; those of the
    nested generator are the seed primes of the outer finder. *)
Definition seedPrimes (g : t) : list Z :=
  filter isPrime
         (Zrange (getStartNumber (base g))
                 (Z.to_nat (getStopNumber (base g) - getStartNumber (base g) + 1))).

(** The values a sieve array stands for, in the order of extraction. *)
Definition extractSieve (width lowerBound : Z) (sieve : list Z) (sieveSize : Z) : list Z :=
  flat_map
    (fun j => map (fun p => p mod 2 ^ width)
                  (extractWord 64 (lowerBound + 240 * Z.of_nat j)
                               (sieveWord (firstn (Z.to_nat sieveSize) sieve) j)))
    (seq 0 (Z.to_nat (sieveSize / 8))).

End PrimeNumberGenerator.

(** * Properties *)

(** ** Ranges and table look-up *)

Section Ranges.

Lemma Zrange_length lo n : length (Zrange lo n) = n.
Proof. unfold Zrange. now rewrite length_map, length_seq. Qed.

Lemma Zrange_In lo n x : In x (Zrange lo n) <-> lo <= x < lo + Z.of_nat n.
Proof.
  unfold Zrange. rewrite in_map_iff. split.
  - intros (k & <- & Hk). apply in_seq in Hk. lia.
  - intros Hx. exists (Z.to_nat (x - lo)). split; [lia|].
    apply in_seq. lia.
Qed.

Lemma Zrange_cons lo n : Zrange lo (S n) = lo :: Zrange (lo + 1) n.
Proof.
  unfold Zrange. cbn [seq map]. f_equal; [lia|].
  rewrite <- seq_shift, map_map. apply map_ext. intros k. lia.
Qed.

Lemma Zrange_app lo n m :
  Zrange lo (n + m) = Zrange lo n ++ Zrange (lo + Z.of_nat n) m.
Proof.
  revert lo. induction n as [|n IH]; intros lo.
  - replace (lo + Z.of_nat 0) with lo by lia. reflexivity.
  - cbn [Nat.add]. rewrite !Zrange_cons, IH. cbn [app].
    replace (lo + 1 + Z.of_nat n) with (lo + Z.of_nat (S n)) by lia.
    reflexivity.
Qed.

(** A boolean test that holds along a range holds at each of its
    members: the way the tables are checked entry by entry. *)
Lemma Zrange_forallb (f : Z -> bool) lo n :
  forallb f (Zrange lo n) = true ->
  forall i, lo <= i < lo + Z.of_nat n -> f i = true.
Proof.
  intros H i Hi. rewrite forallb_forall in H. apply H, Zrange_In, Hi.
Qed.

Lemma filter_none {A} (f : A -> bool) l :
  (forall x, In x l -> f x = false) -> filter f l = [].
Proof.
  induction l as [|a l IH]; intros H; [reflexivity|].
  cbn. rewrite (H a) by now left. apply IH. intros x Hx. apply H. now right.
Qed.

Lemma at_index_Some {A} (a : list A) i :
  0 <= i < Z.of_nat (length a) -> exists x, at_index a i = Some x.
Proof.
  intros Hi. unfold at_index.
  destruct (Z.ltb_spec i 0); [lia|].
  destruct (nth_error a (Z.to_nat i)) eqn:E; [eauto|].
  apply nth_error_None in E. lia.
Qed.

Lemma at_index_bound {A} (a : list A) i x :
  at_index a i = Some x -> 0 <= i < Z.of_nat (length a).
Proof.
  unfold at_index. destruct (Z.ltb_spec i 0); [discriminate|].
  intros E. assert (nth_error a (Z.to_nat i) <> None) as N by congruence.
  apply nth_error_Some in N. lia.
Qed.

End Ranges.


(** ** Sorted lists and rearrangements *)

Section Sorting.

Lemma Zrange_sorted lo n : StronglySorted Z.lt (Zrange lo n).
Proof.
  revert lo. induction n as [|n IH]; intros lo.
  - constructor.
  - rewrite Zrange_cons. constructor; [apply IH|].
    apply Forall_forall. intros x Hx. apply Zrange_In in Hx. lia.
Qed.

Lemma filter_sorted {A} (R : A -> A -> Prop) (f : A -> bool) l :
  StronglySorted R l -> StronglySorted R (filter f l).
Proof.
  induction 1 as [|a l Hl IH Ha]; cbn; [constructor|].
  destruct (f a); [|exact IH].
  constructor; [exact IH|].
  rewrite Forall_forall in *. intros x Hx. apply filter_In in Hx. now apply Ha.
Qed.

Lemma sorted_NoDup l : StronglySorted Z.lt l -> NoDup l.
Proof.
  induction 1 as [|a l Hl IH Ha]; constructor; [|exact IH].
  intros Hin. rewrite Forall_forall in Ha. specialize (Ha a Hin). lia.
Qed.

Lemma insertZ_perm x l : Permutation (x :: l) (insertZ x l).
Proof.
  induction l as [|y l IH]; cbn; [reflexivity|].
  destruct (x <=? y); [reflexivity|].
  rewrite perm_swap. now apply perm_skip.
Qed.

Lemma sortZ_perm l : Permutation l (sortZ l).
Proof.
  induction l as [|x l IH]; cbn; [constructor|].
  rewrite <- insertZ_perm. now apply perm_skip.
Qed.

End Sorting.

(** ** The bit scan and the lowest set bit *)

Section BitScan.
Import Bits.

Lemma pos_ctz_nonneg p : 0 <= pos_ctz p.
Proof. induction p; cbn [pos_ctz]; lia. Qed.

Lemma pow2_succ c : 0 <= c -> 2 ^ (1 + c) = 2 * 2 ^ c.
Proof. intros H. rewrite Z.pow_add_r by lia. reflexivity. Qed.

(** The scanned bit is a power of two below the word. *)
Lemma pos_ctz_pow2_le p : 2 ^ pos_ctz p <= Z.pos p.
Proof.
  induction p as [p IH|p IH|]; cbn [pos_ctz]; try (cbn; lia).
  rewrite pow2_succ by apply pos_ctz_nonneg.
  rewrite (Pos2Z.inj_xO p). lia.
Qed.

Lemma pos_ctz_lt_64 p : isWord64 (Z.pos p) -> pos_ctz p < 64.
Proof.
  intros [_ H1]. unfold UINT64_MAX in H1.
  pose proof (pos_ctz_pow2_le p) as Hp.
  assert (2 ^ pos_ctz p < 2 ^ 64) as H by lia.
  apply Z.pow_lt_mono_r_iff in H; lia.
Qed.

Lemma scanLowestSetBit_range w :
  isWord64 w -> 0 <= scanLowestSetBit w <= 64.
Proof.
  intros H. destruct w as [|p|p]; cbn [scanLowestSetBit]; try lia.
  pose proof (pos_ctz_nonneg p). pose proof (pos_ctz_lt_64 p H). lia.
Qed.

(** Only the zero word scans to the sentinel. *)
Lemma scanLowestSetBit_nonzero w :
  isWord64 w -> w <> 0 -> 0 <= scanLowestSetBit w < 64.
Proof.
  intros H Hw. destruct w as [|p|p]; cbn [scanLowestSetBit].
  - contradiction.
  - pose proof (pos_ctz_nonneg p). pose proof (pos_ctz_lt_64 p H). lia.
  - destruct H. lia.
Qed.

Lemma testbit_succ_case (P : Z -> Prop) :
  P 0 -> (forall j, 0 <= j -> P (Z.succ j)) -> forall i, 0 <= i -> P i.
Proof.
  intros P0 PS i Hi. destruct (Z.eq_dec i 0) as [->|N]; [exact P0|].
  replace i with (Z.succ (i - 1)) by lia. apply PS. lia.
Qed.

(** The scanned bit is set ... *)
Lemma pos_ctz_testbit p : Z.testbit (Z.pos p) (pos_ctz p) = true.
Proof.
  induction p as [p IH|p IH|]; cbn [pos_ctz]; try reflexivity.
  rewrite (Pos2Z.inj_xO p), Z.add_1_l.
  rewrite Z.testbit_even_succ by apply pos_ctz_nonneg. exact IH.
Qed.

(** ... and no bit below it is. *)
Lemma pos_ctz_lowest p i :
  0 <= i < pos_ctz p -> Z.testbit (Z.pos p) i = false.
Proof.
  revert i. induction p as [p IH|p IH|]; cbn [pos_ctz]; intros i Hi; try lia.
  rewrite (Pos2Z.inj_xO p).
  destruct Hi as [Hi Hc]. revert Hc. pattern i.
  apply testbit_succ_case; [| |exact Hi].
  - intros _. apply Z.testbit_even_0.
  - intros j Hj Hc. rewrite Z.testbit_even_succ by exact Hj. apply IH. lia.
Qed.

(** Subtracting the scanned bit clears it and keeps the other bits. *)
Lemma pos_ctz_sub_testbit p i :
  0 <= i ->
  Z.testbit (Z.pos p - 2 ^ pos_ctz p) i
  = Z.testbit (Z.pos p) i && negb (i =? pos_ctz p).
Proof.
  revert i. induction p as [p IH|p IH|]; cbn [pos_ctz]; intros i Hi.
  - rewrite (Pos2Z.inj_xI p).
    replace (2 * Z.pos p + 1 - 2 ^ 0) with (2 * Z.pos p) by (cbn; lia).
    pattern i. apply testbit_succ_case; [| |exact Hi].
    + now rewrite Z.testbit_even_0, Z.testbit_odd_0.
    + intros j Hj. rewrite Z.testbit_even_succ, Z.testbit_odd_succ by exact Hj.
      destruct (Z.eqb_spec (Z.succ j) 0); [lia|]. now rewrite andb_true_r.
  - rewrite (Pos2Z.inj_xO p).
    rewrite pow2_succ by apply pos_ctz_nonneg.
    replace (2 * Z.pos p - 2 * 2 ^ pos_ctz p)
      with (2 * (Z.pos p - 2 ^ pos_ctz p)) by lia.
    pattern i. apply testbit_succ_case; [| |exact Hi].
    + now rewrite !Z.testbit_even_0.
    + intros j Hj. rewrite !Z.testbit_even_succ by exact Hj.
      rewrite IH by exact Hj. f_equal. f_equal.
      destruct (Z.eqb_spec j (pos_ctz p)), (Z.eqb_spec (Z.succ j) (1 + pos_ctz p));
        try reflexivity; lia.
  - replace (1 - 2 ^ 0) with 0 by reflexivity. rewrite Z.testbit_0_l.
    pattern i. apply testbit_succ_case; [| |exact Hi].
    + reflexivity.
    + intros j Hj. change 1 with (2 * 0 + 1).
      now rewrite Z.testbit_odd_succ, Z.testbit_0_l by exact Hj.
Qed.

Lemma land_double_odd a b : Z.land (2 * a) (2 * b + 1) = 2 * Z.land a b.
Proof.
  apply Z.bits_inj'. intros n Hn. rewrite Z.land_spec.
  pattern n. apply testbit_succ_case; [| |exact Hn].
  - now rewrite !Z.testbit_even_0.
  - intros j Hj.
    rewrite !Z.testbit_even_succ, Z.testbit_odd_succ by exact Hj.
    now rewrite Z.land_spec.
Qed.

Lemma land_odd_double a : Z.land (2 * a + 1) (2 * a) = 2 * a.
Proof.
  apply Z.bits_inj'. intros n Hn. rewrite Z.land_spec.
  pattern n. apply testbit_succ_case; [| |exact Hn].
  - now rewrite Z.testbit_even_0, andb_false_r.
  - intros j Hj.
    rewrite Z.testbit_even_succ, Z.testbit_odd_succ by exact Hj.
    apply andb_diag.
Qed.

(** [bits & (bits - 1)] removes the scanned bit. *)
Lemma pos_land_pred p :
  Z.land (Z.pos p) (Z.pos p - 1) = Z.pos p - 2 ^ pos_ctz p.
Proof.
  induction p as [p IH|p IH|]; cbn [pos_ctz].
  - rewrite (Pos2Z.inj_xI p).
    replace (2 * Z.pos p + 1 - 1) with (2 * Z.pos p) by lia.
    rewrite land_odd_double. change (2 ^ 0) with 1. lia.
  - rewrite (Pos2Z.inj_xO p).
    replace (2 * Z.pos p - 1) with (2 * (Z.pos p - 1) + 1) by lia.
    rewrite land_double_odd, IH.
    rewrite pow2_succ by apply pos_ctz_nonneg. lia.
  - reflexivity.
Qed.

Lemma clearLowestSetBit_pos p :
  isWord64 (Z.pos p) ->
  clearLowestSetBit (Z.pos p) = Z.pos p - 2 ^ pos_ctz p.
Proof.
  intros [_ H]. unfold clearLowestSetBit, UINT64_MAX in *.
  rewrite Z.mod_small by lia. apply pos_land_pred.
Qed.

Lemma clearLowestSetBit_word p :
  isWord64 (Z.pos p) -> isWord64 (clearLowestSetBit (Z.pos p)).
Proof.
  intros H. rewrite clearLowestSetBit_pos by exact H.
  pose proof (pos_ctz_pow2_le p). pose proof (pos_ctz_nonneg p).
  assert (0 < 2 ^ pos_ctz p) by (apply Z.pow_pos_nonneg; lia).
  destruct H. split; lia.
Qed.

(** [bits ^ (bits - 1)] is the mask of the bits up to the scanned one. *)
Lemma pos_lxor_pred p :
  Z.lxor (Z.pos p) (Z.pos p - 1) = 2 ^ (pos_ctz p + 1) - 1.
Proof.
  pose proof (Z.add_lxor_2land (Z.pos p) (Z.pos p - 1)) as H.
  rewrite pos_land_pred in H.
  rewrite Z.add_comm, pow2_succ by apply pos_ctz_nonneg. lia.
Qed.

End BitScan.

(** ** Extraction of the set bits of a word *)

Section Extraction.
Import LookupTables Bits.

Lemma optZ_eqb_eq a b : optZ_eqb a b = true -> a = b.
Proof.
  destruct a, b; cbn; try discriminate; try reflexivity.
  intros H. apply Z.eqb_eq in H. now subst.
Qed.

Lemma bitValues_length : length bitValues = 65%nat.
Proof. reflexivity. Qed.

Lemma at_bitValues i :
  0 <= i <= 64 -> at_index bitValues i = Some (tableValue i).
Proof.
  intros Hi. destruct (at_index_Some bitValues i) as [v Hv].
  - rewrite bitValues_length. lia.
  - unfold tableValue. now rewrite Hv.
Qed.

(** Every entry below the sentinel is a residue between 7 and 241. *)
Lemma tableValue_bounds i : 0 <= i < 64 -> 7 <= tableValue i <= 241.
Proof.
  intros Hi.
  assert (forallb (fun i => (7 <=? tableValue i) && (tableValue i <=? 241))
                  (Zrange 0 64) = true) as H by (vm_compute; reflexivity).
  apply (Zrange_forallb _ _ _ H) in Hi.
  apply andb_true_iff in Hi. destruct Hi as [H1 H2].
  apply Z.leb_le in H1, H2. lia.
Qed.

Lemma nextPrime_pos p low :
  isWord64 (Z.pos p) ->
  nextPrime (Z.pos p) low = Some (low + tableValue (pos_ctz p)).
Proof.
  intros H. unfold nextPrime. cbn [scanLowestSetBit].
  pose proof (pos_ctz_nonneg p). pose proof (pos_ctz_lt_64 p H).
  rewrite at_bitValues by lia. reflexivity.
Qed.

(** The loop, started on a word whose bits below [k] are clear, emits
    the values of the set bits from [k] on, provided one round is left
    for each of the positions [k .. 63]. *)
Lemma extractWord_from fuel :
  forall k low w,
    0 <= k <= 64 -> isWord64 w ->
    (forall i, 0 <= i < k -> Z.testbit w i = false) ->
    64 - k <= Z.of_nat fuel ->
    extractWord fuel low w
    = map (fun i => low + tableValue i)
          (filter (Z.testbit w) (Zrange k (Z.to_nat (64 - k)))).
Proof.
  induction fuel as [|fuel IH]; intros k low w Hk Hw Hlow Hfuel.
  - replace k with 64 by lia. reflexivity.
  - cbn [extractWord]. destruct w as [|p|p]; [| |destruct Hw; lia].
    + rewrite filter_none; [reflexivity|]. intros i _. apply Z.testbit_0_l.
    + pose proof (pos_ctz_nonneg p) as Hc0.
      pose proof (pos_ctz_lt_64 p Hw) as Hc64.
      cbn [scanLowestSetBit].
      destruct (Z.eqb_spec (pos_ctz p) 64) as [?|_]; [lia|].
      assert (k <= pos_ctz p) as Hkc.
      { destruct (Z_le_gt_dec k (pos_ctz p)) as [?|G]; [assumption|].
        pose proof (pos_ctz_testbit p) as T. rewrite Hlow in T by lia.
        discriminate. }
      rewrite nextPrime_pos by exact Hw.
      rewrite (IH (pos_ctz p + 1) low).
      * replace (Z.to_nat (64 - k))
          with (Z.to_nat (pos_ctz p - k) + S (Z.to_nat (64 - (pos_ctz p + 1))))%nat
          by lia.
        rewrite Zrange_app, filter_app.
        replace (k + Z.of_nat (Z.to_nat (pos_ctz p - k))) with (pos_ctz p) by lia.
        rewrite (filter_none (Z.testbit (Z.pos p))).
        2:{ intros i Hi. apply Zrange_In in Hi. apply pos_ctz_lowest. lia. }
        rewrite Zrange_cons. cbn [app filter]. rewrite pos_ctz_testbit.
        cbn [map]. f_equal. f_equal.
        apply filter_ext_in. intros i Hi. apply Zrange_In in Hi.
        rewrite clearLowestSetBit_pos by exact Hw.
        rewrite pos_ctz_sub_testbit by lia.
        destruct (Z.eqb_spec i (pos_ctz p)); [lia|]. now rewrite andb_true_r.
      * lia.
      * apply clearLowestSetBit_word, Hw.
      * intros i Hi. rewrite clearLowestSetBit_pos by exact Hw.
        rewrite pos_ctz_sub_testbit by lia.
        destruct (Z.eqb_spec i (pos_ctz p)) as [->|N].
        -- now rewrite andb_false_r.
        -- rewrite pos_ctz_lowest by lia. reflexivity.
      * lia.
Qed.

(** The extraction of a word emits the value of each of its set bits,
    lowest bit first. *)
Lemma extractWord_setBits low w :
  isWord64 w ->
  extractWord 64 low w = map (fun i => low + tableValue i) (setBits w).
Proof.
  intros Hw. unfold setBits.
  change 64%nat with (Z.to_nat (64 - 0)).
  apply extractWord_from; try lia; assumption.
Qed.

Lemma setBits_In w i : In i (setBits w) <-> 0 <= i < 64 /\ Z.testbit w i = true.
Proof.
  unfold setBits. rewrite filter_In, Zrange_In. intuition lia.
Qed.

(** The entries below the sentinel increase with the index. *)
Lemma tableValue_mono i j : 0 <= i < j -> j < 64 -> tableValue i < tableValue j.
Proof.
  intros Hij Hj.
  assert (forallb
            (fun i => forallb (fun j => (j <=? i) || (tableValue i <? tableValue j))
                              (Zrange 0 64))
            (Zrange 0 64) = true) as H by (vm_compute; reflexivity).
  pose proof (Zrange_forallb _ _ _ H i ltac:(lia)) as H'. cbv beta in H'.
  pose proof (Zrange_forallb _ _ _ H' j ltac:(lia)) as H''. cbv beta in H''.
  apply orb_true_iff in H''. destruct H'' as [L|L].
  - apply Z.leb_le in L. lia.
  - now apply Z.ltb_lt in L.
Qed.

Lemma setBits_sorted w : StronglySorted Z.lt (setBits w).
Proof.
  unfold setBits. apply filter_sorted, Zrange_sorted.
Qed.

(** The values of a word come out in strictly increasing order, so
    none is emitted twice. *)
Lemma extractWord_increasing low w :
  isWord64 w -> StronglySorted Z.lt (extractWord 64 low w).
Proof.
  intros Hw. rewrite extractWord_setBits by exact Hw.
  assert (forall i, In i (setBits w) -> 0 <= i < 64) as Hin
    by (intros i Hi; now apply setBits_In in Hi).
  pose proof (setBits_sorted w) as S. revert Hin.
  induction S as [|a l Hl IH Ha]; intros Hin; cbn [map]; [constructor|].
  constructor.
  - apply IH. intros i Hi. apply Hin. now right.
  - rewrite Forall_forall in *. intros v Hv.
    apply in_map_iff in Hv. destruct Hv as (i & <- & Hi).
    pose proof (Ha i Hi). pose proof (Hin i (or_intror Hi)).
    pose proof (Hin a (or_introl eq_refl)).
    pose proof (tableValue_mono a i ltac:(lia) ltac:(lia)). lia.
Qed.

End Extraction.

(** ** The bit-extraction tables *)

Section BitTables.
Import LookupTables Bits.

Lemma bitValues_coprime_list :
  firstn 64 bitValues = filter (coprimeb 30) (Zrange 7 235).
Proof. vm_compute. reflexivity. Qed.

Lemma coprimeb_true m n : coprimeb m n = true <-> Z.gcd n m = 1.
Proof. unfold coprimeb. apply Z.eqb_eq. Qed.

(** C2: for every index [i] in 0..63, [bitValues[i]] is
    [30 * (i div 8)] plus the [(i mod 8)]-th of the offsets
    7, 11, 13, 17, 19, 23, 29, 31; the entries 0..63 are, in strictly
    increasing order, exactly the 64 integers between 7 and 241 that
    are coprime to 30. *)
Theorem bitValues_residues (i : Z) (Hi : 0 <= i < 64) :
  at_index bitValues i
  = Some (30 * (i / 8) + nth (Z.to_nat (i mod 8)) byteOffsets 0)
  /\ StronglySorted Z.lt (firstn 64 bitValues)
  /\ length (firstn 64 bitValues) = 64%nat
  /\ (forall n, In n (firstn 64 bitValues) <-> 7 <= n <= 241 /\ Z.gcd n 30 = 1).
Proof.
  split; [|split; [|split]].
  - apply optZ_eqb_eq.
    apply (Zrange_forallb
             (fun i => optZ_eqb (at_index bitValues i)
                         (Some (30 * (i / 8) + nth (Z.to_nat (i mod 8)) byteOffsets 0)))
             0 64); [vm_compute; reflexivity|lia].
  - rewrite bitValues_coprime_list. apply filter_sorted, Zrange_sorted.
  - reflexivity.
  - intros n. rewrite bitValues_coprime_list, filter_In, Zrange_In, coprimeb_true.
    lia.
Qed.

Lemma bitValues_residues_witness :
  0 <= 9 < 64 /\ at_index bitValues 9 = Some (30 * (9 / 8) + nth (Z.to_nat (9 mod 8)) byteOffsets 0).
Proof.
  split; [lia|]. apply (bitValues_residues 9). lia.
Defined.

(** The De Bruijn hash of a word depends on its lowest set bit only,
    and leads to the entry [bitValues] holds for that bit. *)
Lemma bruijnIndex_pos p :
  isWord64 (Z.pos p) ->
  bruijnIndex (Z.pos p)
  = Z.shiftr (((2 ^ (pos_ctz p + 1) - 1) * debruijn64) mod 2 ^ 64) 58.
Proof.
  intros [_ H]. unfold bruijnIndex, UINT64_MAX in *.
  rewrite (Z.mod_small (Z.pos p - 1)) by lia. now rewrite pos_lxor_pred.
Qed.

Lemma bruijnIndex_bitValues c :
  0 <= c < 64 ->
  let h := Z.shiftr (((2 ^ (c + 1) - 1) * debruijn64) mod 2 ^ 64) 58 in
  0 <= h < 64 /\ at_index bruijnBitValues h = at_index bitValues c.
Proof.
  intros Hc h. subst h.
  assert (forallb
            (fun c =>
               let h := Z.shiftr (((2 ^ (c + 1) - 1) * debruijn64) mod 2 ^ 64) 58 in
               (0 <=? h) && (h <? 64)
               && optZ_eqb (at_index bruijnBitValues h) (at_index bitValues c))
            (Zrange 0 64) = true) as H by (vm_compute; reflexivity).
  apply (Zrange_forallb _ _ _ H) in Hc. cbv zeta in Hc.
  apply andb_true_iff in Hc. destruct Hc as [Hb He].
  apply andb_true_iff in Hb. destruct Hb as [H0 H1].
  apply Z.leb_le in H0. apply Z.ltb_lt in H1. apply optZ_eqb_eq in He.
  split; [lia|exact He].
Qed.

(** C5, as the tables have it: the two tables hold the same values up
    to the De Bruijn hash.  For every bit index [i] in 0..63 the entry
    of [bruijnBitValues] at the hash of the word with lowest set bit
    [i] is [bitValues[i]]; so for every non-zero 64-bit word the
    De Bruijn fallback derives the same value as the bit-scan path. *)
Theorem bruijn_agrees_with_bitscan (bits low : Z)
    (Hw : isWord64 bits) (Hnz : bits <> 0) :
  0 <= bruijnIndex bits < 64
  /\ at_index bruijnBitValues (bruijnIndex bits)
     = at_index bitValues (scanLowestSetBit bits)
  /\ nextPrimeBruijn bits low = nextPrime bits low
  /\ (forall i, 0 <= i < 64 ->
        at_index bruijnBitValues (bruijnIndex (2 ^ i)) = at_index bitValues i).
Proof.
  assert (forall w, isWord64 w -> w <> 0 ->
            0 <= bruijnIndex w < 64
            /\ at_index bruijnBitValues (bruijnIndex w)
               = at_index bitValues (scanLowestSetBit w)) as G.
  { intros w Hw' Hnz'. destruct w as [|p|p]; [contradiction| |destruct Hw'; lia].
    rewrite bruijnIndex_pos by exact Hw'. cbn [scanLowestSetBit].
    apply bruijnIndex_bitValues.
    pose proof (pos_ctz_nonneg p). pose proof (pos_ctz_lt_64 p Hw'). lia. }
  destruct (G bits Hw Hnz) as [Hr He].
  split; [exact Hr|]. split; [exact He|]. split.
  - unfold nextPrimeBruijn, nextPrime. now rewrite He.
  - intros i Hi.
    assert (forallb
              (fun i => optZ_eqb (at_index bruijnBitValues (bruijnIndex (2 ^ i)))
                          (at_index bitValues i))
              (Zrange 0 64) = true) as H by (vm_compute; reflexivity).
    apply optZ_eqb_eq. apply (Zrange_forallb _ _ _ H). lia.
Qed.

Lemma bruijn_agrees_with_bitscan_witness :
  isWord64 40 /\ 40 <> 0
  /\ nextPrimeBruijn 40 240 = nextPrime 40 240.
Proof.
  assert (isWord64 40) as Hw by (unfold isWord64, UINT64_MAX; lia).
  assert (40 <> 0) as Hnz by lia.
  split; [exact Hw|]. split; [exact Hnz|].
  apply (bruijn_agrees_with_bitscan 40 240 Hw Hnz).
Defined.

(** C5, as stated, fails: the tables differ at index 1. *)
Lemma bitValues_bruijn_differ_at_1 :
  ~ (forall i, 0 <= i <= 63 -> at_index bitValues i = at_index bruijnBitValues i).
Proof.
  intros H. specialize (H 1 ltac:(lia)). discriminate H.
Qed.

(** C6: [bruijnBitValues] is a rearrangement of the entries 0..63 of
    [bitValues]: the same 64 values, each exactly once, and not in the
    same order. *)
Theorem bruijnBitValues_permutation :
  Permutation (firstn 64 bitValues) bruijnBitValues
  /\ NoDup bruijnBitValues
  /\ NoDup (firstn 64 bitValues)
  /\ length bruijnBitValues = 64%nat
  /\ (forall v, In v bruijnBitValues <-> In v (firstn 64 bitValues))
  /\ firstn 64 bitValues <> bruijnBitValues.
Proof.
  assert (Permutation (firstn 64 bitValues) bruijnBitValues) as P.
  { assert (sortZ bruijnBitValues = firstn 64 bitValues) as E
      by (vm_compute; reflexivity).
    rewrite <- E. symmetry. apply sortZ_perm. }
  assert (NoDup (firstn 64 bitValues)) as N.
  { apply sorted_NoDup. rewrite bitValues_coprime_list.
    apply filter_sorted, Zrange_sorted. }
  split; [exact P|]. split; [exact (Permutation_NoDup P N)|].
  split; [exact N|]. split; [reflexivity|]. split.
  - intros v. split; intros Hv.
    + exact (Permutation_in v (Permutation_sym P) Hv).
    + exact (Permutation_in v P Hv).
  - discriminate.
Qed.

(** C7: [bitValues] has 65 entries and the last one, at index 64, is 0;
    a bit scan of a 64-bit word gives an index in 0..64, which is
    within the table, and gives 64 for the zero word only; 0 is not a
    prime, and the extraction of a word never emits the sentinel:
    every value it emits comes from an entry below index 64, which is
    at least 7. *)
Theorem bitValues_sentinel (bits low : Z) (Hw : isWord64 bits) :
  length bitValues = 65%nat
  /\ at_index bitValues 64 = Some 0
  /\ ~ Z.prime 0
  /\ 0 <= scanLowestSetBit bits <= 64
  /\ (exists v, at_index bitValues (scanLowestSetBit bits) = Some v)
  /\ (scanLowestSetBit bits = 64 <-> bits = 0)
  /\ (forall i, 0 <= i <= 64 -> exists v, at_index bitValues i = Some v)
  /\ (forall i, 0 <= i <= 64 -> (at_index bitValues i = Some 0 <-> i = 64))
  /\ (forall p, In p (extractWord 64 low bits) ->
        exists i, 0 <= i < 64 /\ Z.testbit bits i = true
                  /\ at_index bitValues i = Some (p - low) /\ 7 <= p - low).
Proof.
  split; [reflexivity|]. split; [reflexivity|]. split; [exact Z.not_prime_0|].
  pose proof (scanLowestSetBit_range bits Hw) as Hr.
  split; [exact Hr|]. split.
  { exists (tableValue (scanLowestSetBit bits)). now apply at_bitValues. }
  split.
  { split.
    - intros E. destruct (Z.eq_dec bits 0) as [->|N]; [reflexivity|].
      pose proof (scanLowestSetBit_nonzero bits Hw N). lia.
    - intros ->. reflexivity. }
  split.
  { intros i Hi. exists (tableValue i). now apply at_bitValues. }
  split.
  { intros i Hi. rewrite at_bitValues by exact Hi. split.
    - intros E. destruct (Z.eq_dec i 64) as [->|N]; [reflexivity|].
      pose proof (tableValue_bounds i ltac:(lia)). injection E. lia.
    - intros ->. reflexivity. }
  intros p Hp. rewrite extractWord_setBits in Hp by exact Hw.
  apply in_map_iff in Hp. destruct Hp as (i & <- & Hi).
  apply setBits_In in Hi. destruct Hi as [Hi Ht].
  exists i. split; [exact Hi|]. split; [exact Ht|].
  replace (low + tableValue i - low) with (tableValue i) by lia.
  split; [apply at_bitValues; lia|].
  pose proof (tableValue_bounds i Hi). lia.
Qed.

Lemma bitValues_sentinel_witness :
  isWord64 0
  /\ at_index bitValues (scanLowestSetBit 0) = Some 0
  /\ extractWord 64 240 0 = [].
Proof.
  assert (isWord64 0) as Hw by (unfold isWord64, UINT64_MAX; lia).
  split; [exact Hw|].
  pose proof (bitValues_sentinel 0 240 Hw) as H.
  split; [exact (proj1 (proj2 H))|reflexivity].
Defined.

End BitTables.

(** ** The wheel tables *)

Section WheelTables.
Import LookupTables Wheel.

Lemma gcd_shift n m q : Z.gcd (n + q * m) m = Z.gcd n m.
Proof.
  rewrite (Z.gcd_comm (n + q * m) m), Z.gcd_add_mult_diag_r. apply Z.gcd_comm.
Qed.

(** What is checked of the entry of a residue [r]: the offset leads to
    a value coprime to [m], no value before it is, and the index is
    the rank of that value among the residues of the wheel. *)
Lemma wheelInit_entries m table :
  (m, table) = (30, wheel30Init) \/ (m, table) = (210, wheel210Init) ->
  forall r, 0 <= r < m ->
    exists e,
      at_index table r = Some e
      /\ 0 <= offsetToNextEligible e
      /\ r + offsetToNextEligible e < m
      /\ coprimeb m (r + offsetToNextEligible e) = true
      /\ forallb (fun k => negb (coprimeb m k))
                 (Zrange r (Z.to_nat (offsetToNextEligible e))) = true
      /\ 0 <= wheelIndexOfThatEligible e < phi m
      /\ at_index (wheelResidues m) (wheelIndexOfThatEligible e)
         = Some (r + offsetToNextEligible e).
Proof.
  intros Hm r Hr.
  set (ok := fun (m : Z) (table : list WheelInit) (r : Z) =>
    match at_index table r with
    | Some e =>
        (0 <=? offsetToNextEligible e)
        && (r + offsetToNextEligible e <? m)
        && coprimeb m (r + offsetToNextEligible e)
        && forallb (fun k => negb (coprimeb m k))
                   (Zrange r (Z.to_nat (offsetToNextEligible e)))
        && (0 <=? wheelIndexOfThatEligible e)
        && (wheelIndexOfThatEligible e <? phi m)
        && optZ_eqb (at_index (wheelResidues m) (wheelIndexOfThatEligible e))
                    (Some (r + offsetToNextEligible e))
    | None => false
    end).
  assert (ok m table r = true) as H.
  { destruct Hm as [E|E]; injection E as -> ->.
    - apply (Zrange_forallb (ok 30 wheel30Init) 0 30);
        [vm_compute; reflexivity|lia].
    - apply (Zrange_forallb (ok 210 wheel210Init) 0 210);
        [vm_compute; reflexivity|lia]. }
  unfold ok in H. destruct (at_index table r) as [e|]; [|discriminate].
  exists e. repeat (apply andb_true_iff in H; destruct H as [H ?]).
  repeat match goal with
         | X : (_ <=? _) = true |- _ => apply Z.leb_le in X
         | X : (_ <? _) = true |- _ => apply Z.ltb_lt in X
         | X : optZ_eqb _ _ = true |- _ => apply optZ_eqb_eq in X
         end.
  repeat split; try assumption; lia.
Qed.

(** C4: for the moduli 30 and 210, the entry [wheelInit[n mod m]] of a
    starting value [n] holds the offset from [n] to the smallest
    integer at or above [n] that is coprime to [m], 0 exactly when [n]
    is coprime to [m] itself, together with the wheel index of the
    residue class of that integer, its rank among the residues of the
    wheel.  Adding the offset to the starting value lands on a
    wheel-eligible value. *)
Theorem wheelInit_aligns (m : Z) (table : list WheelInit) (n : Z)
    (Hm : (m, table) = (30, wheel30Init) \/ (m, table) = (210, wheel210Init))
    (Hn : 0 <= n) :
  exists e,
    initFor m table n = Some e
    /\ 0 <= offsetToNextEligible e
    /\ Z.gcd (n + offsetToNextEligible e) m = 1
    /\ (forall k, n <= k < n + offsetToNextEligible e -> Z.gcd k m <> 1)
    /\ (offsetToNextEligible e = 0 <-> Z.gcd n m = 1)
    /\ 0 <= wheelIndexOfThatEligible e < phi m
    /\ at_index (wheelResidues m) (wheelIndexOfThatEligible e)
       = Some ((n + offsetToNextEligible e) mod m).
Proof.
  assert (0 < m) as Hpos by (destruct Hm as [E|E]; injection E as -> _; lia).
  pose proof (Z.mod_pos_bound n m Hpos) as Hr.
  destruct (wheelInit_entries m table Hm (n mod m) Hr)
    as (e & He & Hoff & Hlt & Hco & Hmin & Hidx & Hres).
  apply coprimeb_true in Hco.
  assert (forall k, n = k mod m + (n / m) * m -> True) as _ by trivial.
  pose proof (Z.div_mod n m ltac:(lia)) as Hdm.
  assert (forall k, n <= k < n + offsetToNextEligible e -> Z.gcd k m <> 1) as Hbefore.
  { intros k Hk G.
    assert (coprimeb m (k - (n / m) * m) = false) as F.
    { apply negb_true_iff.
      apply (Zrange_forallb _ _ _ Hmin). lia. }
    replace k with (k - n / m * m + (n / m) * m) in G by lia.
    rewrite gcd_shift in G. apply coprimeb_true in G. congruence. }
  exists e. split; [exact He|]. split; [exact Hoff|]. split.
  { replace (n + offsetToNextEligible e)
      with (n mod m + offsetToNextEligible e + (n / m) * m) by lia.
    now rewrite gcd_shift. }
  split; [exact Hbefore|]. split.
  { split.
    - intros E0. rewrite E0, Z.add_0_r in Hco.
      replace n with (n mod m + (n / m) * m) by lia. now rewrite gcd_shift.
    - intros G. destruct (Z.eq_dec (offsetToNextEligible e) 0) as [?|N]; [assumption|].
      exfalso. apply (Hbefore n); [lia|exact G]. }
  split; [exact Hidx|].
  rewrite Hres. f_equal.
  replace (n + offsetToNextEligible e)
    with (n mod m + offsetToNextEligible e + (n / m) * m) by lia.
  rewrite Z.mod_add by lia. symmetry. apply Z.mod_small. lia.
Qed.

Lemma wheelInit_aligns_witness :
  exists e,
    initFor 210 wheel210Init 1000 = Some e
    /\ Z.gcd (1000 + offsetToNextEligible e) 210 = 1.
Proof.
  destruct (wheelInit_aligns 210 wheel210Init 1000) as (e & He & _ & Hg & _).
  - right. reflexivity.
  - lia.
  - exists e. split; [exact He|exact Hg].
Defined.

(** C3, as stated, fails for the wheel of modulus 30: the cycle through
    the state (bit position 0, wheel index 0) has 8 = phi(30) states,
    not phi(30) / 2 = 4, and the residue class of 29 carries the wheel
    index 7. *)
Lemma wheel30_cycle_not_half :
  ~ (cycleLength wheel30 (stateIndex 30 0 0) = Some (phi 30 / 2))
  /\ ~ (forall r e, 0 <= r < 30 -> Z.gcd r 30 = 1 ->
          at_index wheel30Init r = Some e ->
          0 <= wheelIndexOfThatEligible e <= phi 30 / 2 - 1).
Proof.
  split.
  - vm_compute. discriminate.
  - intros H. specialize (H 29 (WI 0 7) ltac:(lia) eq_refl eq_refl).
    vm_compute in H. destruct H as [_ H]. apply H. reflexivity.
Qed.

(** C3, as the tables have it: from the state (bit position 0, wheel
    index 0) the transitions of a wheel table come back to that state
    after exactly phi(m) transitions, having visited phi(m) distinct
    states; the factors met on the way, from 1 on, are the residues of
    the wheel, each once and in increasing order; and the residue
    classes coprime to [m] carry the wheel indices 0 .. phi(m) - 1. *)
Theorem wheel_cycle (m : Z) (wheel : list WheelElement) (init : list WheelInit)
    (Hm : (m, wheel, init) = (30, wheel30, wheel30Init)
          \/ (m, wheel, init) = (210, wheel210, wheel210Init)) :
  let start := stateIndex m 0 0 in
  let n := Z.to_nat (phi m) in
  cycleLength wheel start = Some (phi m)
  /\ length (orbit wheel n start) = n
  /\ NoDup (orbit wheel n start)
  /\ last (orbit wheel (S n) start) (-1) = start
  /\ factors wheel n start 1 = wheelResidues m
  /\ StronglySorted Z.lt (wheelResidues m)
  /\ last (factors wheel (S n) start 1) 0 = 1 + m
  /\ (forall r, 0 <= r < m -> Z.gcd r m = 1 ->
        exists e, at_index init r = Some e
                  /\ offsetToNextEligible e = 0
                  /\ 0 <= wheelIndexOfThatEligible e <= phi m - 1
                  /\ at_index (wheelResidues m) (wheelIndexOfThatEligible e) = Some r).
Proof.
  intros start n.
  assert ((m, init) = (30, wheel30Init) \/ (m, init) = (210, wheel210Init)) as Hi
    by (destruct Hm as [E|E]; injection E as -> _ ->; auto).
  assert (cycleLength wheel start = Some (phi m)
          /\ length (orbit wheel n start) = n
          /\ sortZ (orbit wheel n start) = Zrange start n
          /\ last (orbit wheel (S n) start) (-1) = start
          /\ factors wheel n start 1 = wheelResidues m
          /\ last (factors wheel (S n) start 1) 0 = 1 + m) as H.
  { subst start n. destruct Hm as [E|E]; injection E as -> -> _;
      vm_compute; repeat split; reflexivity. }
  destruct H as (H1 & H2 & H3 & H4 & H5 & H6).
  split; [exact H1|]. split; [exact H2|]. split.
  { apply (Permutation_NoDup (l := sortZ (orbit wheel n start))).
    - symmetry. apply sortZ_perm.
    - rewrite H3. apply sorted_NoDup, Zrange_sorted. }
  split; [exact H4|]. split; [exact H5|]. split.
  { apply filter_sorted, Zrange_sorted. }
  split; [exact H6|].
  intros r Hr Hg.
  destruct (wheelInit_entries m init Hi r Hr)
    as (e & He & Hoff & Hlt & Hco & Hmin & Hidx & Hres).
  assert (offsetToNextEligible e = 0) as E0.
  { destruct (Z.eq_dec (offsetToNextEligible e) 0) as [?|N]; [assumption|].
    exfalso.
    assert (coprimeb m r = false) as F.
    { apply negb_true_iff. apply (Zrange_forallb _ _ _ Hmin). lia. }
    apply coprimeb_true in Hg. congruence. }
  exists e. split; [exact He|]. split; [exact E0|]. split; [lia|].
  rewrite Hres, E0. f_equal. lia.
Qed.

Lemma wheel_cycle_witness :
  cycleLength wheel30 (stateIndex 30 0 0) = Some (phi 30)
  /\ factors wheel30 (Z.to_nat (phi 30)) (stateIndex 30 0 0) 1 = wheelResidues 30.
Proof.
  pose proof (wheel_cycle 30 wheel30 wheel30Init (or_introl eq_refl)) as H.
  cbv zeta in H. destruct H as (H1 & _ & _ & _ & H5 & _).
  split; [exact H1|exact H5].
Defined.

(** The same cycle is found in every row of a wheel table, that is
    from wheel index 0 at each of the 8 bit positions. *)
Lemma wheel_cycle_rows m wheel b :
  (m, wheel) = (30, wheel30) \/ (m, wheel) = (210, wheel210) ->
  0 <= b < 8 ->
  cycleLength wheel (stateIndex m b 0) = Some (phi m)
  /\ factors wheel (Z.to_nat (phi m)) (stateIndex m b 0) 1 = wheelResidues m.
Proof.
  intros Hm Hb.
  set (ok := fun (m : Z) (wheel : list WheelElement) (b : Z) =>
    optZ_eqb (cycleLength wheel (stateIndex m b 0)) (Some (phi m))
    && forallb (fun xy => fst xy =? snd xy)
         (combine (factors wheel (Z.to_nat (phi m)) (stateIndex m b 0) 1)
                  (wheelResidues m))
    && (length (factors wheel (Z.to_nat (phi m)) (stateIndex m b 0) 1)
        =? length (wheelResidues m))%nat).
  assert (ok m wheel b = true) as H.
  { destruct Hm as [E|E]; injection E as -> ->.
    - apply (Zrange_forallb (ok 30 wheel30) 0 8); [vm_compute; reflexivity|lia].
    - apply (Zrange_forallb (ok 210 wheel210) 0 8); [vm_compute; reflexivity|lia]. }
  unfold ok in H.
  apply andb_true_iff in H. destruct H as [H Hlen].
  apply andb_true_iff in H. destruct H as [Hc Hf].
  split; [now apply optZ_eqb_eq|].
  apply Nat.eqb_eq in Hlen. revert Hlen Hf.
  generalize (factors wheel (Z.to_nat (phi m)) (stateIndex m b 0) 1).
  generalize (wheelResidues m).
  intros l2 l1. revert l2. induction l1 as [|x l1 IH]; intros [|y l2] Hlen Hf;
    try discriminate; [reflexivity|].
  cbn in Hf. apply andb_true_iff in Hf. destruct Hf as [Hxy Hf].
  apply Z.eqb_eq in Hxy. subst y. f_equal. apply IH; [now injection Hlen|exact Hf].
Qed.

End WheelTables.

(** ** The arithmetic of a crossing-off step *)

Section SieveStep.
Import LookupTables Wheel.

Lemma bitIndexOf_mod n : bitIndexOf (n mod 30) = bitIndexOf n.
Proof. unfold bitIndexOf. now rewrite Z.mod_mod by lia. Qed.

Lemma wheelIndexOf_mod m q : m <> 0 -> wheelIndexOf m (q mod m) = wheelIndexOf m q.
Proof. intros H. unfold wheelIndexOf. now rewrite Z.mod_mod by exact H. Qed.

Lemma gcd_mod n m : m <> 0 -> Z.gcd (n mod m) m = Z.gcd n m.
Proof.
  intros H. rewrite <- (gcd_shift (n mod m) m (n / m)).
  f_equal. pose proof (Z.div_mod n m H). lia.
Qed.

(** The byte of a multiple moves on by the prime's quotient by 30 for
    each unit of the factor, and by a correction that depends on the
    residues only. *)
Lemma byteIndex_step p q f :
  byteIndex (p * (q + f))
  = byteIndex (p * q) + f * (p / 30) + ((p * q - 7) mod 30 + p mod 30 * f) / 30.
Proof.
  unfold byteIndex.
  pose proof (Z.div_mod p 30 ltac:(lia)) as Hp.
  pose proof (Z.div_mod (p * q - 7) 30 ltac:(lia)) as Hy.
  set (a := p / 30) in *. set (r := p mod 30) in *.
  set (y := (p * q - 7) / 30) in *. set (s := (p * q - 7) mod 30) in *.
  replace (p * (q + f) - 7) with ((y + f * a) * 30 + (s + r * f)).
  - rewrite Z.div_add_l by lia. lia.
  - replace (p * (q + f) - 7) with (p * q - 7 + p * f) by ring.
    rewrite Hy at 1. rewrite Hp at 1. ring.
Qed.

Lemma stepChecked_tables m wheel :
  (m, wheel) = (30, wheel30) \/ (m, wheel) = (210, wheel210) ->
  forall rp rq, 0 <= rp < 30 -> 0 <= rq < m -> stepChecked m wheel rp rq = true.
Proof.
  intros Hm rp rq Hp Hq.
  assert (forallb (fun rp => forallb (stepChecked m wheel rp) (Zrange 0 (Z.to_nat m)))
                  (Zrange 0 30) = true) as H
    by (destruct Hm as [E|E]; injection E as -> ->; vm_compute; reflexivity).
  pose proof (Zrange_forallb _ _ _ H rp Hp) as H'. cbv beta in H'.
  apply (Zrange_forallb _ _ _ H'). lia.
Qed.

(** Each entry of the wheel tables is right.  For a sieving prime [p]
    and a factor [q], both on the wheel, the entry at the bit position
    of [p] and the wheel index of [q] names the bit of the multiple
    [p * q], the distance to the next factor on the wheel, the byte
    distance to the next multiple and the state of that multiple. *)
Lemma wheel_step m wheel p q :
  (m, wheel) = (30, wheel30) \/ (m, wheel) = (210, wheel210) ->
  Z.gcd p 30 = 1 -> Z.gcd q m = 1 ->
  exists b k e,
    bitIndexOf p = Some b
    /\ wheelIndexOf m q = Some k
    /\ transition wheel (stateIndex m b k) = Some e
    /\ bitIndexOf (p * q) = Some (bitOf (unsetBit e))
    /\ 0 < nextMultipleFactor e
    /\ Z.gcd (q + nextMultipleFactor e) m = 1
    /\ (forall x, q < x < q + nextMultipleFactor e -> Z.gcd x m <> 1)
    /\ byteIndex (p * (q + nextMultipleFactor e))
       = byteIndex (p * q) + nextMultipleFactor e * (p / 30) + correct e
    /\ exists k', wheelIndexOf m (q + nextMultipleFactor e) = Some k'
                  /\ next e = stateIndex m b k'.
Proof.
  intros Hm Hgp Hgq.
  assert (0 < m /\ (30 | m)) as [Hpos Hdiv].
  { destruct Hm as [E|E]; injection E as -> _; split; try lia.
    - exists 1. reflexivity.
    - exists 7. reflexivity. }
  pose proof (Z.mod_pos_bound p 30 ltac:(lia)) as Hrp.
  pose proof (Z.mod_pos_bound q m Hpos) as Hrq.
  pose proof (stepChecked_tables m wheel Hm _ _ Hrp Hrq) as H.
  unfold stepChecked in H.
  assert (coprimeb 30 (p mod 30) = true) as C1
    by (apply coprimeb_true; rewrite gcd_mod by lia; exact Hgp).
  assert (coprimeb m (q mod m) = true) as C2
    by (apply coprimeb_true; rewrite gcd_mod by lia; exact Hgq).
  rewrite C1, C2 in H. cbn [andb] in H.
  rewrite bitIndexOf_mod, wheelIndexOf_mod in H by lia.
  destruct (bitIndexOf p) as [b|] eqn:Eb; [|discriminate].
  destruct (wheelIndexOf m q) as [k|] eqn:Ek; [|discriminate].
  destruct (transition wheel (stateIndex m b k)) as [e|] eqn:Ee; [|discriminate].
  cbv zeta in H.
  destruct (wheelIndexOf m (q mod m + nextMultipleFactor e)) as [k'|] eqn:Ek';
    [|now rewrite andb_false_r in H].
  repeat (apply andb_true_iff in H; destruct H as [H ?]).
  repeat match goal with
         | X : (_ <? _) = true |- _ => apply Z.ltb_lt in X
         | X : (_ =? _) = true |- _ => apply Z.eqb_eq in X
         | X : optZ_eqb _ _ = true |- _ => apply optZ_eqb_eq in X
         | X : coprimeb _ _ = true |- _ => apply coprimeb_true in X
         end.
  pose proof (Z.div_mod q m ltac:(lia)) as Hdq.
  assert (forall x, (x mod m) mod 30 = x mod 30) as Hmm.
  { intros x. apply Z.mod_mod_divide. exact Hdiv. }
  exists b, k, e. split; [reflexivity|]. split; [reflexivity|].
  split; [exact Ee|]. split.
  { rewrite <- H. unfold bitIndexOf. f_equal.
    rewrite (Zmult_mod p q 30), (Zmult_mod (p mod 30) (q mod m) 30).
    now rewrite Z.mod_mod, Hmm by lia. }
  split; [assumption|]. split.
  { replace (q + nextMultipleFactor e)
      with (q mod m + nextMultipleFactor e + (q / m) * m) by lia.
    now rewrite gcd_shift. }
  split.
  { intros x Hx G.
    assert (coprimeb m (x - (q / m) * m) = false) as F.
    { apply negb_true_iff.
      match goal with
      | X : forallb _ _ = true |- _ => apply (Zrange_forallb _ _ _ X)
      end. lia. }
    replace x with (x - q / m * m + (q / m) * m) in G by lia.
    rewrite gcd_shift in G. apply coprimeb_true in G. congruence. }
  split.
  { rewrite byteIndex_step. f_equal.
    match goal with
    | X : _ / 30 = correct e |- _ => rewrite <- X
    end.
    f_equal. f_equal.
    rewrite (Zminus_mod (p * q) 7 30), (Zminus_mod (p mod 30 * (q mod m)) 7 30).
    f_equal. f_equal.
    rewrite (Zmult_mod p q 30), (Zmult_mod (p mod 30) (q mod m) 30).
    now rewrite Z.mod_mod, Hmm by lia. }
  exists k'. split; [|assumption].
  rewrite <- Ek'. unfold wheelIndexOf. f_equal.
  now rewrite Zplus_mod_idemp_l.
Qed.

(** The step of the crossing-off loop takes the byte of a multiple to
    the byte of the next one. *)
Lemma crossOffStep_next_multiple m wheel p q b k :
  (m, wheel) = (30, wheel30) \/ (m, wheel) = (210, wheel210) ->
  Z.gcd p 30 = 1 -> Z.gcd q m = 1 ->
  bitIndexOf p = Some b -> wheelIndexOf m q = Some k ->
  exists f k',
    0 < f
    /\ Z.gcd (q + f) m = 1
    /\ (forall x, q < x < q + f -> Z.gcd x m <> 1)
    /\ wheelIndexOf m (q + f) = Some k'
    /\ crossOffStep wheel (p / 30) (byteIndex (p * q), stateIndex m b k)
       = Some (byteIndex (p * (q + f)), stateIndex m b k').
Proof.
  intros Hm Hp Hq Hb Hk.
  destruct (wheel_step m wheel p q Hm Hp Hq)
    as (b0 & k0 & e & Eb & Ek & Et & _ & Hf & Hg & Hmin & Hbyte & k' & Ek' & Hn).
  rewrite Hb in Eb. rewrite Hk in Ek. injection Eb as <-. injection Ek as <-.
  exists (nextMultipleFactor e), k'.
  split; [exact Hf|]. split; [exact Hg|]. split; [exact Hmin|].
  split; [exact Ek'|].
  unfold crossOffStep. rewrite Et, Hbyte, Hn. reflexivity.
Qed.

End SieveStep.

(** ** The generator of the sieving primes *)

Section Generator.
Import LookupTables Bits SieveOfEratosthenes PrimeNumberGenerator.

Lemma fed_nil w : fed w [] = w.
Proof.
  destruct w as [[b sp] c]. unfold fed. cbn. now rewrite app_nil_r.
Qed.

Lemma fed_app w ps qs : fed (fed w ps) qs = fed w (ps ++ qs).
Proof. unfold fed. cbn. now rewrite app_assoc. Qed.

Lemma extractLoop_fed width fuel : forall low bits w,
  execState (extractLoop finderSieve width fuel low bits) w
  = fed w (map (fun p => p mod 2 ^ width) (extractWord fuel low bits)).
Proof.
  induction fuel as [|fuel IH]; intros low bits w.
  - cbn. now rewrite fed_nil.
  - cbn [extractLoop extractWord]. destruct (scanLowestSetBit bits =? 64).
    + cbn. now rewrite fed_nil.
    + destruct (nextPrime bits low) as [p|].
      * unfold execState in *. cbn. rewrite IH. cbn [map].
        unfold fed. cbn. now rewrite <- app_assoc.
      * cbn. now rewrite fed_nil.
Qed.

Lemma wordLoop_fed width lowerBound sieve n : forall j w,
  execState (wordLoop finderSieve width lowerBound sieve n j) w
  = fed w (flat_map
             (fun j => map (fun p => p mod 2 ^ width)
                           (extractWord 64 (lowerBound + 240 * Z.of_nat j)
                                        (sieveWord sieve j)))
             (seq j n)).
Proof.
  induction n as [|n IH]; intros j w.
  - cbn. now rewrite fed_nil.
  - cbn [wordLoop seq flat_map].
    pose proof (extractLoop_fed width 64 (lowerBound + 240 * Z.of_nat j)
                                (sieveWord sieve j) w) as E.
    unfold execState in *. cbn [bind Monad_state runState].
    destruct (runState (extractLoop finderSieve width 64 _ _) w) as [u w1].
    cbn [snd] in E. subst w1. rewrite IH. apply fed_app.
Qed.

(** C9: every value the generator extracts from a finished segment is
    passed to the [sieve] operation of the outer finder, in the order
    of extraction and as it is found; nothing is handed to the
    external consumer, and the finder is otherwise left as it is. *)
Theorem generate_feeds_finder (g : PrimeNumberGenerator.t)
    (sieve : list Z) (sieveSize : Z) (w : World) :
  let w' := execState (analyseSieve g sieve sieveSize) w in
  let lowerBound := getSegmentLow (base g) mod 2 ^ 32 in
  sievingPrimes (primeNumberFinder_ w')
  = sievingPrimes (primeNumberFinder_ w) ++ extractSieve 32 lowerBound sieve sieveSize
  /\ consumed w' = consumed w
  /\ finderBase (primeNumberFinder_ w') = finderBase (primeNumberFinder_ w)
  /\ execState (generate g sieve sieveSize) w = w'.
Proof.
  intros w' lowerBound. subst w'.
  unfold analyseSieve, generate, GENERATE_PRIMES.
  fold lowerBound. rewrite wordLoop_fed. unfold fed, extractSieve.
  cbn [primeNumberFinder_ sievingPrimes consumed finderBase]. repeat split; reflexivity.
Qed.

Lemma In_firstn {A} (x : A) n l : In x (firstn n l) -> In x l.
Proof.
  intros H. rewrite <- (firstn_skipn n l). apply in_or_app. now left.
Qed.

Lemma In_skipn {A} (x : A) n l : In x (skipn n l) -> In x l.
Proof.
  intros H. rewrite <- (firstn_skipn n l). apply in_or_app. now right.
Qed.

(** A sieve array of bytes is read as 64-bit words. *)
Lemma sieveWord_word64 sieve j :
  Forall (fun b => 0 <= b <= 255) sieve -> isWord64 (sieveWord sieve j).
Proof.
  intros Hb. unfold sieveWord.
  assert (Forall (fun b => 0 <= b <= 255) (firstn 8 (skipn (8 * j) sieve))) as H.
  { apply Forall_forall. intros b Hin. rewrite Forall_forall in Hb.
    apply Hb. eapply In_skipn, In_firstn, Hin. }
  assert (length (firstn 8 (skipn (8 * j) sieve)) <= 8)%nat as L
    by apply firstn_le_length.
  revert H L. generalize (firstn 8 (skipn (8 * j) sieve)). intros l H.
  assert (0 <= fold_right (fun b acc => b + 256 * acc) 0 l
          < 256 ^ Z.of_nat (length l)) as B.
  { induction H as [|b l Hb' Hl IH]; [cbn; lia|].
    cbn [fold_right length]. rewrite Nat2Z.inj_succ, Z.pow_succ_r by lia. lia. }
  intros L. unfold isWord64, UINT64_MAX.
  assert (256 ^ Z.of_nat (length l) <= 256 ^ 8) as P
    by (apply Z.pow_le_mono_r; lia).
  change (256 ^ 8) with (2 ^ 64) in P. lia.
Qed.

(** The values handed to the finder are those of the set bits of the
    sieve array: bit [i] of the word [j] stands for
    [lowerBound + 240 j + bitValues[i]]. *)
Lemma extractSieve_setBits width lowerBound sieve sieveSize :
  Forall (fun b => 0 <= b <= 255) sieve ->
  extractSieve width lowerBound sieve sieveSize
  = flat_map
      (fun j => map (fun i => (lowerBound + 240 * Z.of_nat j + tableValue i) mod 2 ^ width)
                    (setBits (sieveWord (firstn (Z.to_nat sieveSize) sieve) j)))
      (seq 0 (Z.to_nat (sieveSize / 8))).
Proof.
  intros Hb. unfold extractSieve. apply flat_map_ext. intros j.
  rewrite extractWord_setBits, map_map; [reflexivity|].
  apply sieveWord_word64. apply Forall_forall. intros b Hin.
  rewrite Forall_forall in Hb. apply Hb. eapply In_firstn, Hin.
Qed.

Lemma isqrt_word64 n : isWord64 n -> 0 <= isqrt n <= UINT32_MAX.
Proof.
  intros [H0 H1]. unfold isqrt, UINT32_MAX, UINT64_MAX in *.
  split; [apply Z.sqrt_nonneg|].
  assert (Z.sqrt n < 2 ^ 32) as H; [|lia].
  apply Z.sqrt_lt_square; lia.
Qed.

Lemma nextHighestPowerOf2_isPowerOf2 x :
  isPowerOf2 (nextHighestPowerOf2 x) = true.
Proof.
  unfold isPowerOf2, nextHighestPowerOf2.
  pose proof (Z.log2_up_nonneg x) as Hk.
  apply andb_true_iff. split.
  - apply Z.ltb_lt. apply Z.pow_pos_nonneg; lia.
  - apply Z.eqb_eq. rewrite Z.sub_1_r, <- Z.ones_equiv, Z.land_ones by exact Hk.
    apply Z.mod_same. apply Z.pow_nonzero; lia.
Qed.

(** What the constructor of the generator returns, case by case. *)
Lemma generator_new_cases defs f :
  PrimeNumberGenerator.new defs f
  = if (isqrt (getStopNumber (finderBase f)) <? getPreSieveLimit (finderBase f) + 1)
       || (UINT64_MAX <? isqrt (getStopNumber (finderBase f)))
    then ConfigurationViolation
    else if isqrt (getStopNumber (finderBase f)) <=? UINT32_MAX
         then Constructed
                (PrimeNumberGenerator.mk
                   (SieveOfEratosthenes.mk
                      (getPreSieveLimit (finderBase f) + 1)
                      (isqrt (getStopNumber (finderBase f)))
                      (nextHighestPowerOf2 (PRIMENUMBERGENERATOR_SIEVESIZE defs * 1024))
                      (PRIMENUMBERGENERATOR_PRESIEVE_LIMIT defs)
                      (firstSegmentLow (getPreSieveLimit (finderBase f) + 1))))
         else AssertionFailure.
Proof.
  unfold PrimeNumberGenerator.new, SieveOfEratosthenes.new.
  rewrite nextHighestPowerOf2_isPowerOf2. cbn [negb]. rewrite orb_false_r.
  destruct ((isqrt (getStopNumber (finderBase f)) <? getPreSieveLimit (finderBase f) + 1)
            || (UINT64_MAX <? isqrt (getStopNumber (finderBase f)))); reflexivity.
Qed.

(** A power of two is left as it is by the rounding, any other size
    is raised. *)
Lemma isPowerOf2_pow2 x : isPowerOf2 x = true -> exists k, 0 <= k /\ x = 2 ^ k.
Proof.
  unfold isPowerOf2. intros H. apply andb_true_iff in H. destruct H as [H0 H1].
  apply Z.ltb_lt in H0. apply Z.eqb_eq in H1.
  destruct x as [|p|p]; try lia.
  rewrite pos_land_pred in H1. exists (pos_ctz p).
  split; [apply pos_ctz_nonneg|lia].
Qed.

Lemma nextHighestPowerOf2_fixed x :
  isPowerOf2 x = true -> nextHighestPowerOf2 x = x.
Proof.
  intros H. destruct (isPowerOf2_pow2 x H) as (k & Hk & ->).
  unfold nextHighestPowerOf2. now rewrite Z.log2_up_pow2.
Qed.

Lemma nextHighestPowerOf2_ge x : 0 < x -> x <= nextHighestPowerOf2 x.
Proof.
  intros H. unfold nextHighestPowerOf2.
  apply (Z.log2_log2_up_spec x H).
Qed.

(** Trial division decides primality. *)
Lemma isPrime_spec n : isPrime n = true <-> Z.prime n.
Proof.
  unfold isPrime, Z.prime. rewrite andb_true_iff, Z.ltb_lt, forallb_forall.
  split; intros [H1 H2]; (split; [exact H1|]).
  - intros d Hd Hdiv.
    assert (In d (Zrange 2 (Z.to_nat (n - 2)))) as Hin by (apply Zrange_In; lia).
    specialize (H2 d Hin). apply negb_true_iff, Z.eqb_neq in H2.
    apply H2. apply Z.mod_divide; [lia|exact Hdiv].
  - intros d Hin. apply Zrange_In in Hin.
    apply negb_true_iff, Z.eqb_neq. intros Hmod.
    apply (H2 d); [lia|]. apply Z.mod_divide; [lia|exact Hmod].
Qed.

(** The first segment of a sieve is aligned with the bytes of the
    sieve array: its lower bound is a multiple of 30, and the first
    wheel-eligible value of the range is one of the values of its
    first byte. *)
Lemma firstSegmentLow_aligned start :
  7 <= start ->
  firstSegmentLow start mod 30 = 0
  /\ start <= firstEligible start
  /\ Z.gcd (firstEligible start) 30 = 1
  /\ firstSegmentLow start + 7 <= firstEligible start <= firstSegmentLow start + 31.
Proof.
  intros Hs. unfold firstSegmentLow.
  pose proof (Z.mod_pos_bound start 30 ltac:(lia)) as Hr.
  destruct (wheelInit_entries 30 wheel30Init (or_introl eq_refl) (start mod 30) Hr)
    as (e & He & Hoff & Hlt & Hco & _).
  unfold firstEligible. rewrite He.
  set (n := start + offsetToNextEligible e).
  pose proof (Z.div_mod start 30 ltac:(lia)) as Hdm.
  assert (Z.gcd n 30 = 1) as G.
  { apply coprimeb_true in Hco. unfold n.
    replace (start + offsetToNextEligible e)
      with (start mod 30 + offsetToNextEligible e + (start / 30) * 30) by lia.
    now rewrite gcd_shift. }
  unfold Wheel.byteIndex.
  pose proof (Z.div_mod (n - 7) 30 ltac:(lia)) as Hn.
  pose proof (Z.mod_pos_bound (n - 7) 30 ltac:(lia)) as Hm.
  assert (0 <= (n - 7) / 30) as Hq by (apply Z.div_pos; unfold n; lia).
  rewrite Z.max_r by exact Hq.
  split; [rewrite Z.mul_comm; apply Z.mod_mul; lia|].
  split; [unfold n; lia|]. split; [exact G|]. split; [lia|].
  assert (forallb (fun r => negb (coprimeb 30 (r + 7)) || (r <=? 24)) (Zrange 0 30) = true)
    as H by (vm_compute; reflexivity).
  pose proof (Zrange_forallb _ _ _ H ((n - 7) mod 30) ltac:(lia)) as H'. cbv beta in H'.
  assert (coprimeb 30 ((n - 7) mod 30 + 7) = true) as C.
  { apply coprimeb_true. rewrite <- (gcd_shift _ 30 ((n - 7) / 30)).
    replace ((n - 7) mod 30 + 7 + (n - 7) / 30 * 30) with n by lia. exact G. }
  rewrite C in H'. cbn [negb orb] in H'. apply Z.leb_le in H'. lia.
Qed.

(** C8, as the constructor has it: the generator of the sieving primes
    is built over the range from the pre-sieve limit of the outer
    finder plus one, not from 0, to the integer square root of the
    stop number of the outer finder; the seed primes it delivers for
    the outer sieve are exactly the primes [p] above the pre-sieve
    limit with [p * p <= stop], in increasing order. *)
Theorem generator_seed_primes (defs : Defs) (f : PrimeNumberFinder)
    (g : PrimeNumberGenerator.t) (p : Z)
    (Hpre : 0 <= getPreSieveLimit (finderBase f))
    (Hstop : 0 <= getStopNumber (finderBase f))
    (Hnew : PrimeNumberGenerator.new defs f = Constructed g) :
  getStartNumber (base g) = getPreSieveLimit (finderBase f) + 1
  /\ getStartNumber (base g) <> 0
  /\ getStopNumber (base g) = isqrt (getStopNumber (finderBase f))
  /\ (In p (seedPrimes g) <->
        Z.prime p /\ getPreSieveLimit (finderBase f) < p
        /\ p * p <= getStopNumber (finderBase f))
  /\ StronglySorted Z.lt (seedPrimes g).
Proof.
  rewrite generator_new_cases in Hnew.
  destruct (Z.ltb_spec (isqrt (getStopNumber (finderBase f)))
                       (getPreSieveLimit (finderBase f) + 1)) as [?|Hle];
    cbn [orb] in Hnew; [discriminate|].
  destruct (UINT64_MAX <? isqrt (getStopNumber (finderBase f))); [discriminate|].
  destruct (isqrt (getStopNumber (finderBase f)) <=? UINT32_MAX); [|discriminate].
  injection Hnew as <-.
  unfold seedPrimes. cbn [base getStartNumber getStopNumber startNumber stopNumber].
  split; [reflexivity|]. split; [lia|]. split; [reflexivity|]. split.
  - rewrite filter_In, Zrange_In, isPrime_spec. unfold isqrt in *.
    split.
    + intros [Hr Hp]. split; [exact Hp|]. split; [lia|].
      apply Z.sqrt_le_square; lia.
    + intros (Hp & Hlt & Hsq). split; [|exact Hp].
      assert (p <= Z.sqrt (getStopNumber (finderBase f))) as Hps
        by (apply Z.sqrt_le_square; lia).
      lia.
  - apply filter_sorted, Zrange_sorted.
Qed.

Lemma generator_seed_primes_witness :
  exists g,
    PrimeNumberGenerator.new exampleDefs (exampleFinder 1000) = Constructed g
    /\ getStartNumber (base g) = 19 + 1
    /\ getStopNumber (base g) = isqrt 1000
    /\ In 23 (seedPrimes g)
    /\ Z.prime 23.
Proof.
  destruct (PrimeNumberGenerator.new exampleDefs (exampleFinder 1000)) as [g| |] eqn:E;
    [|discriminate E|discriminate E].
  assert (0 <= getPreSieveLimit (finderBase (exampleFinder 1000))) as Hpre by (cbn; lia).
  assert (0 <= getStopNumber (finderBase (exampleFinder 1000))) as Hstop by (cbn; lia).
  destruct (generator_seed_primes exampleDefs (exampleFinder 1000) g 23 Hpre Hstop E)
    as (H1 & _ & H3 & H4 & _).
  assert (Z.prime 23) as P by (apply isPrime_spec; vm_compute; reflexivity).
  exists g. split; [reflexivity|]. split; [exact H1|]. split; [exact H3|].
  split; [|exact P].
  apply H4. split; [exact P|]. cbn. lia.
Defined.

(** C8, as stated, fails: for an outer finder with pre-sieve limit 19
    that sieves up to 10^9, the range of the generator starts at 20,
    not at 0, and the prime 7, which is below the square root of 10^9,
    is not among the seed primes. *)
Lemma seed_primes_not_all_below_sqrt :
  exists g,
    PrimeNumberGenerator.new exampleDefs (exampleFinder 1000000000) = Constructed g
    /\ getStartNumber (base g) = 20
    /\ getStartNumber (base g) <> 0
    /\ Z.prime 7
    /\ 7 <= isqrt (getStopNumber (finderBase (exampleFinder 1000000000)))
    /\ ~ In 7 (seedPrimes g).
Proof.
  destruct (PrimeNumberGenerator.new exampleDefs (exampleFinder 1000000000))
    as [g| |] eqn:E; [|discriminate E|discriminate E].
  rewrite generator_new_cases in E. vm_compute in E. injection E as <-.
  eexists. split; [reflexivity|]. split; [reflexivity|]. split; [discriminate|].
  split; [apply isPrime_spec; vm_compute; reflexivity|].
  split; [vm_compute; discriminate|].
  unfold seedPrimes. rewrite filter_In, Zrange_In. cbn. lia.
Qed.

(** C10, as stated, fails: a generator sieve size of 3 kilobytes, 3072
    bytes, is not a power of two, yet the construction succeeds, with
    a sieve of 4096 bytes. *)
Lemma sieve_size_rounded_not_rejected :
  exists g,
    PrimeNumberGenerator.new (mkDefs 3 13) (exampleFinder 1000000000) = Constructed g
    /\ isPowerOf2 (PRIMENUMBERGENERATOR_SIEVESIZE (mkDefs 3 13) * 1024) = false
    /\ getSieveSize (base g) = 4096
    /\ getSieveSize (base g) <> PRIMENUMBERGENERATOR_SIEVESIZE (mkDefs 3 13) * 1024.
Proof.
  destruct (PrimeNumberGenerator.new (mkDefs 3 13) (exampleFinder 1000000000))
    as [g| |] eqn:E; [|discriminate E|discriminate E].
  rewrite generator_new_cases in E. vm_compute in E. injection E as <-.
  eexists. split; [reflexivity|]. split; [reflexivity|]. split; [reflexivity|].
  discriminate.
Qed.

(** C10, as the constructor has it.  A sieve size configured for the
    generator that is not a power of two does not make the
    construction fail: the constructor rounds it up to the next power
    of two, and leaves a power of two as it is.  The other violations
    fail fast: the generator is not built when its range is empty,
    start > stop, nor when its stop number is beyond 64 bits, and its
    assertion refuses a stop number above UINT32_MAX, which the
    integer square root of a 64-bit stop number never is.  A generator
    that is built holds the start and the stop number it was given,
    not clamped or adjusted. *)
Theorem generator_construction (defs : Defs) (f : PrimeNumberFinder) :
  let configured := PRIMENUMBERGENERATOR_SIEVESIZE defs * 1024 in
  let size := nextHighestPowerOf2 configured in
  let start := getPreSieveLimit (finderBase f) + 1 in
  let stop := isqrt (getStopNumber (finderBase f)) in
  isPowerOf2 size = true
  /\ (0 < configured -> configured <= size)
  /\ (isPowerOf2 configured = true -> size = configured)
  /\ (stop < start ->
        PrimeNumberGenerator.new defs f = ConfigurationViolation)
  /\ (UINT64_MAX < stop ->
        PrimeNumberGenerator.new defs f = ConfigurationViolation)
  /\ (start <= stop -> UINT32_MAX < stop <= UINT64_MAX ->
        PrimeNumberGenerator.new defs f = AssertionFailure)
  /\ (isWord64 (getStopNumber (finderBase f)) ->
        stop <= UINT32_MAX /\ PrimeNumberGenerator.new defs f <> AssertionFailure)
  /\ (forall g, PrimeNumberGenerator.new defs f = Constructed g <->
        start <= stop <= UINT32_MAX
        /\ g = PrimeNumberGenerator.mk
                 (SieveOfEratosthenes.mk start stop size
                    (PRIMENUMBERGENERATOR_PRESIEVE_LIMIT defs)
                    (firstSegmentLow start))).
Proof.
  intros configured size start stop.
  pose proof (generator_new_cases defs f) as E.
  fold configured in E. fold size in E. fold start in E. fold stop in E.
  assert (UINT32_MAX < UINT64_MAX) as Hmax by reflexivity.
  split; [apply nextHighestPowerOf2_isPowerOf2|].
  split; [apply nextHighestPowerOf2_ge|].
  split; [apply nextHighestPowerOf2_fixed|].
  rewrite E.
  destruct (Z.ltb_spec stop start) as [H1|H1];
    destruct (Z.ltb_spec UINT64_MAX stop) as [H2|H2];
    destruct (Z.leb_spec stop UINT32_MAX) as [H3|H3]; cbn [orb];
    (split; [intros; try reflexivity; lia|]);
    (split; [intros; try reflexivity; lia|]);
    (split; [intros; try reflexivity; lia|]);
    (split; [intros Hw; pose proof (isqrt_word64 _ Hw) as [_ Hs]; fold stop in Hs;
             split; [exact Hs|try discriminate; lia]|]);
    intros g; split;
    try (intros D; discriminate D);
    try (intros [D _]; lia).
  - intros D. injection D as <-. split; [lia|reflexivity].
  - intros [_ ->]. reflexivity.
Qed.

Lemma generator_construction_witness :
  isPowerOf2 (nextHighestPowerOf2 (PRIMENUMBERGENERATOR_SIEVESIZE (mkDefs 3 13) * 1024)) = true
  /\ PrimeNumberGenerator.new exampleDefs (exampleFinder 100) = ConfigurationViolation.
Proof.
  split.
  - exact (proj1 (generator_construction (mkDefs 3 13) (exampleFinder 100))).
  - pose proof (generator_construction exampleDefs (exampleFinder 100)) as H.
    cbv zeta in H. destruct H as (_ & _ & _ & H4 & _).
    apply H4. vm_compute. reflexivity.
Defined.

End Generator.

(** ** Further properties of the wheel tables *)

Section WheelCoverage.
Import LookupTables Wheel.

Lemma indexOf_range x l i : indexOf x l = Some i -> 0 <= i < Z.of_nat (length l).
Proof.
  revert i. induction l as [|y l IH]; intros i; cbn [indexOf length]; [discriminate|].
  destruct (x =? y).
  - intros E. injection E as <-. lia.
  - destruct (indexOf x l) as [j|]; cbn; [|discriminate].
    intros E. injection E as <-. specialize (IH j eq_refl). lia.
Qed.

Lemma indexOf_at x l i : indexOf x l = Some i -> at_index l i = Some x.
Proof.
  revert i. induction l as [|y l IH]; intros i; cbn [indexOf]; [discriminate|].
  destruct (Z.eqb_spec x y) as [->|N].
  - intros E. injection E as <-. reflexivity.
  - destruct (indexOf x l) as [j|] eqn:Ej; cbn; [|discriminate].
    intros E. injection E as <-. specialize (IH j eq_refl).
    pose proof (indexOf_range x l j Ej) as Hj.
    unfold at_index in *. destruct (Z.ltb_spec j 0); [lia|].
    destruct (Z.ltb_spec (Z.succ j) 0); [lia|].
    replace (Z.to_nat (Z.succ j)) with (S (Z.to_nat j)) by lia. exact IH.
Qed.

Lemma at_indexOf x l i :
  NoDup l -> at_index l i = Some x -> indexOf x l = Some i.
Proof.
  intros N. revert i. induction N as [|y l Hy N IH]; intros i H.
  - unfold at_index in H. destruct (i <? 0); [discriminate|].
    now destruct (Z.to_nat i).
  - pose proof (at_index_bound _ _ _ H) as Hi. unfold at_index in H.
    destruct (Z.ltb_spec i 0); [lia|]. cbn [indexOf].
    destruct (Z.eq_dec i 0) as [->|Ni].
    + cbn in H. injection H as ->. now rewrite Z.eqb_refl.
    + replace (Z.to_nat i) with (S (Z.to_nat (i - 1))) in H by lia. cbn in H.
      assert (at_index l (i - 1) = Some x) as H'.
      { unfold at_index. destruct (Z.ltb_spec (i - 1) 0); [lia|exact H]. }
      destruct (Z.eqb_spec x y) as [->|Nx].
      * exfalso. apply Hy. eapply nth_error_In, H.
      * rewrite (IH _ H'). cbn. f_equal. lia.
Qed.

Lemma wheelResidues_NoDup m : NoDup (wheelResidues m).
Proof. apply sorted_NoDup, filter_sorted, Zrange_sorted. Qed.

Lemma wheelResidues_length m : Z.of_nat (length (wheelResidues m)) = phi m.
Proof. reflexivity. Qed.

(** A value coprime to the modulus shares no prime of the wheel with
    it, and a value that is not shares one. *)
Lemma wheelPrimes_coprime m n :
  m = 30 \/ m = 210 ->
  (Z.gcd n m = 1 -> Forall (fun d => ~ (d | n)) (wheelPrimes m))
  /\ (Z.gcd n m <> 1 -> Exists (fun d => (d | n)) (wheelPrimes m)).
Proof.
  intros Hm. split.
  - intros G. apply Forall_forall. intros d Hd Hdiv.
    assert (2 <= d /\ (d | m)) as [Hd2 Hdm].
    { destruct Hm as [-> | ->]; cbn in Hd;
        repeat (destruct Hd as [<-|Hd]; [split; [lia|]|]); try contradiction.
      - now exists 15. - now exists 10. - now exists 6.
      - now exists 105. - now exists 70. - now exists 42. - now exists 30. }
    pose proof (Z.gcd_greatest n m d Hdiv Hdm) as H1. rewrite G in H1.
    apply Z.divide_1_r_nonneg in H1; lia.
  - intros G.
    assert (0 < m) as Hpos by lia.
    pose proof (Z.mod_pos_bound n m Hpos) as Hr.
    assert (forallb (fun r => coprimeb m r
                              || existsb (fun d => r mod d =? 0) (wheelPrimes m))
                    (Zrange 0 (Z.to_nat m)) = true) as H
      by (destruct Hm as [-> | ->]; vm_compute; reflexivity).
    pose proof (Zrange_forallb _ _ _ H (n mod m) ltac:(lia)) as H'. cbv beta in H'.
    apply orb_true_iff in H'. destruct H' as [C|E].
    + apply coprimeb_true in C. rewrite gcd_mod in C by lia. contradiction.
    + apply existsb_exists in E. destruct E as (d & Hd & E).
      apply Exists_exists. exists d. split; [exact Hd|].
      assert (2 <= d /\ (d | m)) as [Hd2 Hdm].
      { destruct Hm as [-> | ->]; cbn in Hd;
          repeat (destruct Hd as [<-|Hd]; [split; [lia|]|]); try contradiction.
        - now exists 15. - now exists 10. - now exists 6.
        - now exists 105. - now exists 70. - now exists 42. - now exists 30. }
      apply Z.eqb_eq in E. rewrite Z.mod_mod_divide in E by exact Hdm.
      apply Z.mod_divide; [lia|exact E].
Qed.

(** X1: the table [wheelInit] finds the next multiple of a prime that
    is not divisible by 2, 3 and 5 (and 7 for the modulus 210): for a
    prime [p] on the wheel and a quotient [q], the multiple
    [p * (q + offset)] is divisible by none of them, every multiple
    from [p * q] up to it is divisible by one of them, and the index of
    the entry is the wheel index of the factor [q + offset]. *)
Theorem wheelInit_next_multiple (m : Z) (table : list WheelInit) (p q : Z)
    (Hm : (m, table) = (30, wheel30Init) \/ (m, table) = (210, wheel210Init))
    (Hp : Z.gcd p m = 1) (Hq : 0 <= q) :
  exists e,
    initFor m table q = Some e
    /\ Forall (fun d => ~ (d | p * (q + offsetToNextEligible e))) (wheelPrimes m)
    /\ (forall x, q <= x < q + offsetToNextEligible e ->
          Exists (fun d => (d | p * x)) (wheelPrimes m))
    /\ wheelIndexOf m (q + offsetToNextEligible e)
       = Some (wheelIndexOfThatEligible e).
Proof.
  assert (m = 30 \/ m = 210) as Hm'
    by (destruct Hm as [E|E]; injection E as -> _; auto).
  assert (0 < m) as Hpos by lia.
  pose proof (Z.mod_pos_bound q m Hpos) as Hr.
  destruct (wheelInit_entries m table Hm (q mod m) Hr)
    as (e & He & Hoff & Hlt & Hco & Hmin & Hidx & Hres).
  apply coprimeb_true in Hco.
  pose proof (Z.div_mod q m ltac:(lia)) as Hdm.
  assert (Z.gcd (q + offsetToNextEligible e) m = 1) as G.
  { replace (q + offsetToNextEligible e)
      with (q mod m + offsetToNextEligible e + (q / m) * m) by lia.
    now rewrite gcd_shift. }
  exists e. split; [exact He|]. split.
  { apply (wheelPrimes_coprime m _ Hm'). now apply Z.coprime_mul_l. }
  split.
  { intros x Hx.
    assert (Z.gcd x m <> 1) as Gx.
    { intros Gx.
      assert (coprimeb m (x - (q / m) * m) = false) as F.
      { apply negb_true_iff. apply (Zrange_forallb _ _ _ Hmin). lia. }
      replace x with (x - q / m * m + (q / m) * m) in Gx by lia.
      rewrite gcd_shift in Gx. apply coprimeb_true in Gx. congruence. }
    pose proof (proj2 (wheelPrimes_coprime m x Hm') Gx) as Hex.
    apply Exists_exists in Hex. destruct Hex as (d & Hd & Hdiv).
    apply Exists_exists. exists d. split; [exact Hd|].
    now apply Z.divide_mul_r. }
  unfold wheelIndexOf.
  replace ((q + offsetToNextEligible e) mod m) with (q mod m + offsetToNextEligible e).
  - apply at_indexOf; [apply wheelResidues_NoDup|exact Hres].
  - replace (q + offsetToNextEligible e)
      with (q mod m + offsetToNextEligible e + (q / m) * m) by lia.
    rewrite Z.mod_add by lia. symmetry. apply Z.mod_small. lia.
Qed.

Lemma wheelInit_next_multiple_witness :
  exists e,
    initFor 30 wheel30Init 14 = Some e
    /\ Forall (fun d => ~ (d | 11 * (14 + offsetToNextEligible e))) (wheelPrimes 30).
Proof.
  destruct (wheelInit_next_multiple 30 wheel30Init 11 14) as (e & He & Hn & _).
  - left. reflexivity.
  - reflexivity.
  - lia.
  - exists e. split; [exact He|exact Hn].
Defined.

End WheelCoverage.

(** ** The wheel tables as a state machine *)

Section WheelMachine.
Import LookupTables Wheel.

(** X2: each entry of [wheel30] and [wheel210] is right.  For a
    sieving prime [p] coprime to 30 and a factor [q] on the wheel, the
    entry at the bit position of [p] and the wheel index of [q] names
    the bit of the multiple [p * q]; its factor step leads to the next
    factor on the wheel; the byte of the next multiple is the byte of
    [p * q] plus the factor step times [p / 30] plus the correction;
    and its next state is the state of that next factor. *)
Theorem wheel_entry_arithmetic (m : Z) (wheel : list WheelElement) (p q : Z)
    (Hm : (m, wheel) = (30, wheel30) \/ (m, wheel) = (210, wheel210))
    (Hp : Z.gcd p 30 = 1) (Hq : Z.gcd q m = 1) :
  exists b k e,
    bitIndexOf p = Some b
    /\ wheelIndexOf m q = Some k
    /\ transition wheel (stateIndex m b k) = Some e
    /\ bitIndexOf (p * q) = Some (bitOf (unsetBit e))
    /\ 0 < nextMultipleFactor e
    /\ Z.gcd (q + nextMultipleFactor e) m = 1
    /\ (forall x, q < x < q + nextMultipleFactor e -> Z.gcd x m <> 1)
    /\ byteIndex (p * (q + nextMultipleFactor e))
       = byteIndex (p * q) + nextMultipleFactor e * (p / 30) + correct e
    /\ exists k', wheelIndexOf m (q + nextMultipleFactor e) = Some k'
                  /\ next e = stateIndex m b k'.
Proof. exact (wheel_step m wheel p q Hm Hp Hq). Qed.

Lemma wheel_entry_arithmetic_witness :
  exists b k e,
    bitIndexOf 7 = Some b
    /\ wheelIndexOf 30 7 = Some k
    /\ transition wheel30 (stateIndex 30 b k) = Some e
    /\ bitIndexOf (7 * 7) = Some (bitOf (unsetBit e))
    /\ byteIndex (7 * (7 + nextMultipleFactor e))
       = byteIndex (7 * 7) + nextMultipleFactor e * (7 / 30) + correct e.
Proof.
  destruct (wheel_entry_arithmetic 30 wheel30 7 7 (or_introl eq_refl) eq_refl eq_refl)
    as (b & k & e & H1 & H2 & H3 & H4 & _ & _ & _ & H8 & _).
  exists b, k, e. repeat split; assumption.
Defined.

(** X3: the transitions never leave the table nor the row: for every
    index [i] of a wheel table the entry exists, its next state is the
    entry one column further in the same row, the last column leading
    back to the first; outside of the table there is no entry. *)
Theorem wheel_next_stays_in_row (m : Z) (wheel : list WheelElement) (i : Z)
    (Hm : (m, wheel) = (30, wheel30) \/ (m, wheel) = (210, wheel210)) :
  Z.of_nat (length wheel) = 8 * phi m
  /\ (0 <= i < 8 * phi m ->
        exists e, transition wheel i = Some e
                  /\ next e = (i / phi m) * phi m + (i mod phi m + 1) mod phi m
                  /\ 0 <= next e < 8 * phi m
                  /\ next e / phi m = i / phi m)
  /\ (~ 0 <= i < 8 * phi m -> transition wheel i = None).
Proof.
  assert (Z.of_nat (length wheel) = 8 * phi m) as L
    by (destruct Hm as [E|E]; injection E as -> ->; vm_compute; reflexivity).
  split; [exact L|]. split.
  - intros Hi.
    set (ok := fun (m : Z) (wheel : list WheelElement) (i : Z) =>
      match transition wheel i with
      | Some e => next e =? (i / phi m) * phi m + (i mod phi m + 1) mod phi m
      | None => false
      end).
    assert (ok m wheel i = true) as H.
    { destruct Hm as [E|E]; injection E as -> ->.
      - apply (Zrange_forallb (ok 30 wheel30) 0 64); [vm_compute; reflexivity|].
        change (phi 30) with 8 in Hi. lia.
      - apply (Zrange_forallb (ok 210 wheel210) 0 384); [vm_compute; reflexivity|].
        change (phi 210) with 48 in Hi. lia. }
    unfold ok in H. destruct (transition wheel i) as [e|]; [|discriminate].
    apply Z.eqb_eq in H. exists e. split; [reflexivity|]. split; [exact H|].
    assert (0 < phi m) as Hphi
      by (destruct Hm as [E|E]; injection E as -> _; vm_compute; reflexivity).
    pose proof (Z.mod_pos_bound (i mod phi m + 1) (phi m) Hphi) as Hc.
    assert (0 <= i / phi m < 8) as Hrow.
    { split; [apply Z.div_pos; lia|]. apply Z.div_lt_upper_bound; lia. }
    rewrite H. split; [nia|].
    rewrite Z.div_add_l by lia. rewrite (Z.div_small _ _ Hc). lia.
  - intros Hi. unfold transition, at_index.
    destruct (Z.ltb_spec i 0); [reflexivity|].
    apply nth_error_None. lia.
Qed.

Lemma wheel_next_stays_in_row_witness :
  exists e, transition wheel210 95 = Some e /\ next e = 48 /\ next e / 48 = 95 / 48.
Proof.
  destruct (proj1 (proj2 (wheel_next_stays_in_row 210 wheel210 95 (or_intror eq_refl))))
    as (e & He & Hn & _ & Hr).
  - change (phi 210) with 48. lia.
  - exists e. split; [exact He|]. split; [exact Hn|exact Hr].
Defined.

Lemma wheelIndexOf_range m q k :
  wheelIndexOf m q = Some k -> 0 <= k < phi m.
Proof.
  intros H. apply indexOf_range in H. now rewrite wheelResidues_length in H.
Qed.

Lemma bitIndexOf_range n b : bitIndexOf n = Some b -> 0 <= b < 8.
Proof. intros H. apply indexOf_range in H. exact H. Qed.

(** The walk along the transitions, from the state of a multiple. *)
Lemma wheel_walk_steps m wheel p b n :
  (m, wheel) = (30, wheel30) \/ (m, wheel) = (210, wheel210) ->
  Z.gcd p 30 = 1 -> bitIndexOf p = Some b ->
  forall q k,
    Z.gcd q m = 1 -> wheelIndexOf m q = Some k ->
    exists q' k',
      factorAfter wheel n (stateIndex m b k) q = Some q'
      /\ q <= q'
      /\ Z.gcd q' m = 1
      /\ length (filter (coprimeb m) (Zrange (q + 1) (Z.to_nat (q' - q)))) = n
      /\ wheelIndexOf m q' = Some k'
      /\ crossOffSteps wheel (p / 30) n (byteIndex (p * q), stateIndex m b k)
         = Some (byteIndex (p * q'), stateIndex m b k').
Proof.
  intros Hm Hp Hb. induction n as [|n IH]; intros q k Hq Hk.
  - exists q, k. cbn [factorAfter crossOffSteps].
    replace (q - q) with 0 by lia. repeat split; try assumption; try reflexivity; lia.
  - destruct (wheel_step m wheel p q Hm Hp Hq)
      as (b0 & k0 & e & Eb & Ek & Et & _ & Hf & Hg & Hmin & Hbyte & k1 & Ek1 & Hn).
    rewrite Hb in Eb. rewrite Hk in Ek. injection Eb as <-. injection Ek as <-.
    destruct (IH (q + nextMultipleFactor e) k1 Hg Ek1)
      as (q' & k' & Hfa & Hle & Hg' & Hcount & Hk' & Hsteps).
    exists q', k'. cbn [factorAfter crossOffSteps]. unfold crossOffStep.
    rewrite Et, Hn, <- Hbyte.
    split; [exact Hfa|]. split; [lia|]. split; [exact Hg'|].
    split; [|split; [exact Hk'|exact Hsteps]].
    replace (Z.to_nat (q' - q))
      with (Z.to_nat (nextMultipleFactor e - 1)
            + (1 + Z.to_nat (q' - (q + nextMultipleFactor e))))%nat by lia.
    rewrite Zrange_app, filter_app, length_app.
    rewrite filter_none.
    2:{ intros x Hx. apply Zrange_In in Hx.
        destruct (coprimeb m x) eqn:C; [|reflexivity].
        apply coprimeb_true in C. exfalso. apply (Hmin x); [lia|exact C]. }
    rewrite Zrange_app, filter_app, length_app.
    replace (q + 1 + Z.of_nat (Z.to_nat (nextMultipleFactor e - 1)))
      with (q + nextMultipleFactor e) by lia.
    change (Zrange (q + nextMultipleFactor e) 1) with
      [q + nextMultipleFactor e + Z.of_nat 0].
    cbn [filter]. replace (q + nextMultipleFactor e + Z.of_nat 0)
      with (q + nextMultipleFactor e) by lia.
    rewrite (proj2 (coprimeb_true m _) Hg).
    replace (q + nextMultipleFactor e + Z.of_nat 1)
      with (q + nextMultipleFactor e + 1) by lia.
    rewrite Hcount. reflexivity.
Qed.

(** X4: the walk along the transitions visits the multiples of a prime
    in turn.  From the state of the multiple [p * q], [n] crossing-off
    steps reach the state of the multiple [p * q'], where [q'] is the
    [n]-th integer coprime to the modulus after [q]: the byte index
    has moved from the byte of [p * q] to the byte of [p * q'], and the
    wheel index is that of [q']. *)
Theorem wheel_walk (m : Z) (wheel : list WheelElement) (p q b k : Z) (n : nat)
    (Hm : (m, wheel) = (30, wheel30) \/ (m, wheel) = (210, wheel210))
    (Hp : Z.gcd p 30 = 1) (Hq : Z.gcd q m = 1)
    (Hb : bitIndexOf p = Some b) (Hk : wheelIndexOf m q = Some k) :
  exists q' k',
    factorAfter wheel n (stateIndex m b k) q = Some q'
    /\ q <= q'
    /\ Z.gcd q' m = 1
    /\ length (filter (coprimeb m) (Zrange (q + 1) (Z.to_nat (q' - q)))) = n
    /\ wheelIndexOf m q' = Some k'
    /\ crossOffSteps wheel (p / 30) n (byteIndex (p * q), stateIndex m b k)
       = Some (byteIndex (p * q'), stateIndex m b k').
Proof. exact (wheel_walk_steps m wheel p b n Hm Hp Hb q k Hq Hk). Qed.

Lemma wheel_walk_witness :
  exists q' k',
    factorAfter wheel30 3 (stateIndex 30 1 4) 17 = Some q'
    /\ crossOffSteps wheel30 (11 / 30) 3 (byteIndex (11 * 17), stateIndex 30 1 4)
       = Some (byteIndex (11 * q'), stateIndex 30 1 k').
Proof.
  destruct (wheel_walk 30 wheel30 11 17 1 4 3 (or_introl eq_refl)
              eq_refl eq_refl eq_refl eq_refl)
    as (q' & k' & H1 & _ & _ & _ & _ & H6).
  exists q', k'. split; [exact H1|exact H6].
Defined.

Lemma factorAfter_shift wheel n : forall i q,
  factorAfter wheel n i q = option_map (Z.add q) (factorAfter wheel n i 0).
Proof.
  induction n as [|n IH]; intros i q; cbn [factorAfter].
  - cbn. f_equal. lia.
  - destruct (transition wheel i) as [e|]; [|reflexivity].
    rewrite (IH (next e) (q + nextMultipleFactor e)).
    rewrite (IH (next e) (0 + nextMultipleFactor e)).
    destruct (factorAfter wheel n (next e) 0); cbn; [f_equal; lia|reflexivity].
Qed.

(** From every state, the factor steps of one turn of the wheel add up
    to the modulus. *)
Lemma factorAfter_turn m wheel i :
  (m, wheel) = (30, wheel30) \/ (m, wheel) = (210, wheel210) ->
  0 <= i < 8 * phi m ->
  factorAfter wheel (Z.to_nat (phi m)) i 0 = Some m.
Proof.
  intros Hm Hi. apply optZ_eqb_eq.
  destruct Hm as [E|E]; injection E as -> ->.
  - apply (Zrange_forallb
             (fun i => optZ_eqb (factorAfter wheel30 (Z.to_nat (phi 30)) i 0) (Some 30))
             0 64); [vm_compute; reflexivity|].
    change (phi 30) with 8 in Hi. lia.
  - apply (Zrange_forallb
             (fun i => optZ_eqb (factorAfter wheel210 (Z.to_nat (phi 210)) i 0) (Some 210))
             0 384); [vm_compute; reflexivity|].
    change (phi 210) with 48 in Hi. lia.
Qed.

(** X5: one turn of the wheel.  After phi(m) crossing-off steps a prime
    is back in the state it started from, its factor has grown by the
    modulus [m], and its byte index by [p * (m / 30)], the bytes that
    [m] multiples of [p] span. *)
Theorem wheel_full_turn (m : Z) (wheel : list WheelElement) (p q b k : Z)
    (Hm : (m, wheel) = (30, wheel30) \/ (m, wheel) = (210, wheel210))
    (Hp : Z.gcd p 30 = 1) (Hq : Z.gcd q m = 1)
    (Hb : bitIndexOf p = Some b) (Hk : wheelIndexOf m q = Some k) :
  factorAfter wheel (Z.to_nat (phi m)) (stateIndex m b k) q = Some (q + m)
  /\ crossOffSteps wheel (p / 30) (Z.to_nat (phi m))
                   (byteIndex (p * q), stateIndex m b k)
     = Some (byteIndex (p * q) + p * (m / 30), stateIndex m b k).
Proof.
  assert (0 < m /\ m = 30 * (m / 30)) as [Hpos Hm30]
    by (destruct Hm as [E|E]; injection E as -> _; split; [lia|reflexivity| lia|reflexivity]).
  pose proof (bitIndexOf_range p b Hb) as Rb.
  pose proof (wheelIndexOf_range m q k Hk) as Rk.
  assert (factorAfter wheel (Z.to_nat (phi m)) (stateIndex m b k) q = Some (q + m)) as F.
  { rewrite factorAfter_shift, (factorAfter_turn m wheel _ Hm); [reflexivity|].
    unfold stateIndex. nia. }
  split; [exact F|].
  destruct (wheel_walk_steps m wheel p b (Z.to_nat (phi m)) Hm Hp Hb q k Hq Hk)
    as (q' & k' & Hfa & _ & _ & _ & Hk' & Hsteps).
  rewrite F in Hfa. injection Hfa as <-.
  assert (k' = k) as ->.
  { unfold wheelIndexOf in Hk', Hk.
    replace ((q + m) mod m) with (q mod m) in Hk'
      by (rewrite <- (Z.mod_add q 1 m) by lia; f_equal; lia).
    congruence. }
  rewrite Hsteps. f_equal. f_equal. unfold byteIndex.
  replace (p * (q + m) - 7) with (p * q - 7 + p * (m / 30) * 30).
  - apply Z.div_add. lia.
  - remember (m / 30) as t. rewrite Hm30. ring.
Qed.

Lemma wheel_full_turn_witness :
  crossOffSteps wheel210 (13 / 30) (Z.to_nat (phi 210))
                (byteIndex (13 * 11), stateIndex 210 2 1)
  = Some (byteIndex (13 * 11) + 13 * (210 / 30), stateIndex 210 2 1).
Proof.
  exact (proj2 (wheel_full_turn 210 wheel210 13 11 2 1 (or_intror eq_refl)
                  eq_refl eq_refl eq_refl eq_refl)).
Defined.

(** X6: the two wheels agree on the bit of a multiple: for a prime [p]
    coprime to 30 and a factor [q] coprime to 210, the entry of
    [wheel30] and the entry of [wheel210] for [p] and [q] clear the
    same bit, and the step of [wheel210] is at least that of
    [wheel30]. *)
Theorem wheels_agree_on_bit (p q : Z)
    (Hp : Z.gcd p 30 = 1) (Hq : Z.gcd q 210 = 1) :
  exists b k30 k210 e30 e210,
    bitIndexOf p = Some b
    /\ wheelIndexOf 30 q = Some k30
    /\ wheelIndexOf 210 q = Some k210
    /\ transition wheel30 (stateIndex 30 b k30) = Some e30
    /\ transition wheel210 (stateIndex 210 b k210) = Some e210
    /\ unsetBit e30 = unsetBit e210
    /\ nextMultipleFactor e30 <= nextMultipleFactor e210.
Proof.
  assert (Z.gcd q 30 = 1) as Hq30.
  { assert ((Z.gcd q 30 | 1)) as D.
    { rewrite <- Hq. apply Z.gcd_greatest; [apply Z.gcd_divide_l|].
      apply Z.divide_trans with 30; [apply Z.gcd_divide_r|now exists 7]. }
    apply Z.divide_1_r_nonneg in D; [exact D|apply Z.gcd_nonneg]. }
  destruct (wheel_step 30 wheel30 p q (or_introl eq_refl) Hp Hq30)
    as (b & k30 & e30 & Eb & Ek & Et & Hbit & Hf & Hg & Hmin & _).
  destruct (wheel_step 210 wheel210 p q (or_intror eq_refl) Hp Hq)
    as (b' & k210 & e210 & Eb' & Ek' & Et' & Hbit' & Hf' & Hg' & _).
  rewrite Eb in Eb'. injection Eb' as <-.
  exists b, k30, k210, e30, e210.
  repeat (split; [assumption|]). split.
  - rewrite Hbit in Hbit'. injection Hbit' as Hbits.
    destruct (unsetBit e30), (unsetBit e210); cbn in Hbits;
      try reflexivity; discriminate.
  - destruct (Z_le_gt_dec (nextMultipleFactor e30) (nextMultipleFactor e210)) as [?|G];
      [assumption|exfalso].
    apply (Hmin (q + nextMultipleFactor e210)); [lia|].
    assert ((Z.gcd (q + nextMultipleFactor e210) 30 | 1)) as D.
    { rewrite <- Hg'. apply Z.gcd_greatest; [apply Z.gcd_divide_l|].
      apply Z.divide_trans with 30; [apply Z.gcd_divide_r|now exists 7]. }
    apply Z.divide_1_r_nonneg in D; [exact D|apply Z.gcd_nonneg].
Qed.

Lemma wheels_agree_on_bit_witness :
  exists e30 e210,
    transition wheel30 (stateIndex 30 0 2) = Some e30
    /\ transition wheel210 (stateIndex 210 0 1) = Some e210
    /\ unsetBit e30 = unsetBit e210.
Proof.
  destruct (wheels_agree_on_bit 7 11 eq_refl eq_refl)
    as (b & k30 & k210 & e30 & e210 & Hb & H30 & H210 & T30 & T210 & Hu & _).
  injection Hb as <-. injection H30 as <-. injection H210 as <-.
  exists e30, e210. repeat split; assumption.
Defined.

End WheelMachine.

(** ** Positions in the sieve array and the values they stand for *)

Section Positions.
Import LookupTables Bits Wheel.

Lemma tableValue_formula i :
  0 <= i < 64 ->
  tableValue i = 30 * (i / 8) + nth (Z.to_nat (i mod 8)) byteOffsets 0.
Proof.
  intros Hi. apply Z.eqb_eq.
  apply (Zrange_forallb
           (fun i => tableValue i =? 30 * (i / 8) + nth (Z.to_nat (i mod 8)) byteOffsets 0)
           0 64); [vm_compute; reflexivity|lia].
Qed.

(** X7: bit positions and values are two views of the same thing.  A
    value [n >= 7] coprime to 30 has a byte and a bit in the sieve
    array, and [bitValues], read at that bit of that byte within its
    64-bit word, gives [n] back; conversely the entry [i] of
    [bitValues], in the word [w], lies in the byte [8 w + i / 8] at
    the bit [i mod 8]. *)
Theorem bitValues_position_roundtrip (n w i : Z)
    (Hn : 7 <= n) (Hg : Z.gcd n 30 = 1) (Hw : 0 <= w) (Hi : 0 <= i < 64) :
  (exists c, bitIndexOf n = Some c
             /\ 0 <= c < 8
             /\ 0 <= byteIndex n
             /\ 240 * (byteIndex n / 8) + tableValue (8 * (byteIndex n mod 8) + c) = n)
  /\ byteIndex (240 * w + tableValue i) = 8 * w + i / 8
  /\ bitIndexOf (240 * w + tableValue i) = Some (i mod 8).
Proof.
  split; [|split].
  - pose proof (Z.div_mod (n - 7) 30 ltac:(lia)) as Hdm.
    pose proof (Z.mod_pos_bound (n - 7) 30 ltac:(lia)) as Hs.
    assert (0 <= (n - 7) / 30) as HB by (apply Z.div_pos; lia).
    fold (byteIndex n) in Hdm, HB.
    set (B := byteIndex n) in *. set (s := (n - 7) mod 30) in *.
    assert (n = s + 7 + B * 30) as En by lia.
    assert (forallb
              (fun s => negb (coprimeb 30 (s + 7))
                        || match bitIndexOf (s + 7) with
                           | Some c => nth (Z.to_nat c) byteOffsets 0 =? s + 7
                           | None => false
                           end)
              (Zrange 0 30) = true) as H by (vm_compute; reflexivity).
    pose proof (Zrange_forallb _ _ _ H s ltac:(lia)) as H'. cbv beta in H'.
    assert (coprimeb 30 (s + 7) = true) as C.
    { apply coprimeb_true. rewrite <- (gcd_shift (s + 7) 30 B), <- En. exact Hg. }
    rewrite C in H'. cbn [negb orb] in H'.
    assert (bitIndexOf n = bitIndexOf (s + 7)) as Eb.
    { unfold bitIndexOf. f_equal. rewrite En. apply Z.mod_add. lia. }
    rewrite Eb. destruct (bitIndexOf (s + 7)) as [c|] eqn:Ec; [|discriminate].
    apply Z.eqb_eq in H'. pose proof (bitIndexOf_range _ _ Ec) as Rc.
    exists c. split; [reflexivity|]. split; [exact Rc|]. split; [exact HB|].
    pose proof (Z.mod_pos_bound B 8 ltac:(lia)) as RB.
    pose proof (Z.div_mod B 8 ltac:(lia)) as DB.
    rewrite tableValue_formula by lia.
    replace ((8 * (B mod 8) + c) / 8) with (B mod 8)
      by (rewrite (Z.mul_comm 8), Z.div_add_l, (Z.div_small c 8) by lia; lia).
    replace ((8 * (B mod 8) + c) mod 8) with c
      by (rewrite (Z.mul_comm 8), Z.add_comm, Z.mod_add by lia;
          symmetry; apply Z.mod_small; lia).
    rewrite H'. lia.
  - assert (byteIndex (tableValue i) = i / 8) as E.
    { apply Z.eqb_eq.
      apply (Zrange_forallb (fun i => byteIndex (tableValue i) =? i / 8) 0 64);
        [vm_compute; reflexivity|lia]. }
    rewrite <- E. unfold byteIndex.
    replace (240 * w + tableValue i - 7) with (8 * w * 30 + (tableValue i - 7)) by lia.
    apply Z.div_add_l. lia.
  - assert (bitIndexOf (tableValue i) = Some (i mod 8)) as E.
    { apply optZ_eqb_eq.
      apply (Zrange_forallb
               (fun i => optZ_eqb (bitIndexOf (tableValue i)) (Some (i mod 8))) 0 64);
        [vm_compute; reflexivity|lia]. }
    rewrite <- E. unfold bitIndexOf. f_equal.
    replace (240 * w + tableValue i) with (tableValue i + 8 * w * 30) by lia.
    apply Z.mod_add. lia.
Qed.

Lemma bitValues_position_roundtrip_witness :
  (exists c, bitIndexOf 1009 = Some c
             /\ 240 * (byteIndex 1009 / 8) + tableValue (8 * (byteIndex 1009 mod 8) + c)
                = 1009)
  /\ byteIndex (240 * 4 + tableValue 13) = 8 * 4 + 13 / 8.
Proof.
  destruct (bitValues_position_roundtrip 1009 4 13) as [(c & Hc & _ & _ & Hv) [Hb _]];
    try lia; try reflexivity.
  split; [exists c; split; [exact Hc|exact Hv]|exact Hb].
Defined.

End Positions.

(** ** The values the generator hands to the finder *)

Section GeneratedValues.
Import LookupTables Bits SieveOfEratosthenes PrimeNumberGenerator.

Lemma sorted_app l1 l2 :
  StronglySorted Z.lt l1 -> StronglySorted Z.lt l2 ->
  (forall x y, In x l1 -> In y l2 -> x < y) ->
  StronglySorted Z.lt (l1 ++ l2).
Proof.
  intros S1 S2 H. induction S1 as [|a l1 S1 IH Ha]; cbn [app]; [exact S2|].
  constructor.
  - apply IH. intros x y Hx Hy. apply H; [now right|exact Hy].
  - apply Forall_app. split; [exact Ha|].
    apply Forall_forall. intros y Hy. apply H; [now left|exact Hy].
Qed.

(** Blocks of values, each sorted and below the start of the next,
    make a sorted sequence. *)
Lemma blocks_sorted (f : nat -> list Z) (lo : nat -> Z) n :
  (forall j, StronglySorted Z.lt (f j)) ->
  (forall j x, In x (f j) -> lo j <= x < lo (S j)) ->
  (forall j, lo j <= lo (S j)) ->
  forall a, StronglySorted Z.lt (flat_map f (seq a n))
            /\ Forall (fun x => lo a <= x) (flat_map f (seq a n)).
Proof.
  intros Hs Hr Hl. induction n as [|n IH]; intros a; cbn [seq flat_map].
  - split; constructor.
  - destruct (IH (S a)) as [S2 L2]. split.
    + apply sorted_app; [apply Hs|exact S2|].
      intros x y Hx Hy. rewrite Forall_forall in L2.
      specialize (L2 y Hy). specialize (Hr a x Hx). lia.
    + apply Forall_app. split.
      * apply Forall_forall. intros x Hx. specialize (Hr a x Hx). lia.
      * rewrite Forall_forall in *. intros y Hy. specialize (L2 y Hy).
        specialize (Hl a). lia.
Qed.

Lemma flat_map_ext_in {A B} (f g : A -> list B) l :
  (forall a, In a l -> f a = g a) -> flat_map f l = flat_map g l.
Proof.
  induction l as [|a l IH]; intros H; cbn [flat_map]; [reflexivity|].
  rewrite (H a) by now left. f_equal. apply IH. intros b Hb. apply H. now right.
Qed.

(** The values the words of a segment stand for, word by word. *)
Lemma segment_word_range lowerBound sieveSize j i :
  0 <= lowerBound -> 0 <= sieveSize ->
  (j < Z.to_nat (sieveSize / 8))%nat -> 0 <= i < 64 ->
  lowerBound + 240 * Z.of_nat j + 7
  <= lowerBound + 240 * Z.of_nat j + tableValue i
  <= lowerBound + 240 * Z.of_nat j + 241
  /\ lowerBound + 240 * Z.of_nat j + 241 <= lowerBound + 30 * sieveSize + 1.
Proof.
  intros Hl Hs Hj Hi. pose proof (tableValue_bounds i Hi) as Hv.
  pose proof (Z.div_mod sieveSize 8 ltac:(lia)) as Hd.
  pose proof (Z.mod_pos_bound sieveSize 8 ltac:(lia)) as Hm.
  assert (0 <= sieveSize / 8) as Hq by (apply Z.div_pos; lia).
  split; lia.
Qed.

(** The values of a segment that fits 32 bits: no wrap-around. *)
Lemma extractSieve_exact lowerBound sieve sieveSize :
  Forall (fun b => 0 <= b <= 255) sieve ->
  0 <= lowerBound -> 0 <= sieveSize ->
  lowerBound + 30 * sieveSize + 1 <= UINT32_MAX ->
  extractSieve 32 lowerBound sieve sieveSize
  = flat_map
      (fun j => map (fun i => lowerBound + 240 * Z.of_nat j + tableValue i)
                    (setBits (sieveWord (firstn (Z.to_nat sieveSize) sieve) j)))
      (seq 0 (Z.to_nat (sieveSize / 8))).
Proof.
  intros Hb Hl Hs Hfit. rewrite extractSieve_setBits by exact Hb.
  apply flat_map_ext_in. intros j Hj. apply in_seq in Hj.
  apply map_ext_in. intros i Hi. apply setBits_In in Hi. destruct Hi as [Hi _].
  pose proof (segment_word_range lowerBound sieveSize j i Hl Hs ltac:(lia) Hi) as R.
  apply Z.mod_small. unfold UINT32_MAX in Hfit. lia.
Qed.

Lemma extractSieve_sorted lowerBound sieve sieveSize :
  Forall (fun b => 0 <= b <= 255) sieve ->
  0 <= lowerBound -> 0 <= sieveSize ->
  lowerBound + 30 * sieveSize + 1 <= UINT32_MAX ->
  StronglySorted Z.lt (extractSieve 32 lowerBound sieve sieveSize)
  /\ Forall (fun v => lowerBound + 7 <= v <= lowerBound + 30 * sieveSize + 1)
            (extractSieve 32 lowerBound sieve sieveSize).
Proof.
  intros Hb Hl Hs Hfit. rewrite extractSieve_exact by assumption.
  set (f := fun j => map (fun i => lowerBound + 240 * Z.of_nat j + tableValue i)
                         (setBits (sieveWord (firstn (Z.to_nat sieveSize) sieve) j))).
  split.
  - apply (blocks_sorted f (fun j => lowerBound + 240 * Z.of_nat j + 7)).
    + intros j. unfold f.
      assert (forall i, In i (setBits (sieveWord (firstn (Z.to_nat sieveSize) sieve) j))
                        -> 0 <= i < 64) as Hin
        by (intros i Hi; now apply setBits_In in Hi).
      pose proof (setBits_sorted (sieveWord (firstn (Z.to_nat sieveSize) sieve) j)) as S.
      revert Hin. induction S as [|a l Sl IH Ha]; intros Hin; cbn [map]; constructor.
      * apply IH. intros i Hi. apply Hin. now right.
      * rewrite Forall_forall in *. intros v Hv.
        apply in_map_iff in Hv. destruct Hv as (i & <- & Hi).
        pose proof (Ha i Hi). pose proof (Hin i (or_intror Hi)).
        pose proof (Hin a (or_introl eq_refl)).
        pose proof (tableValue_mono a i ltac:(lia) ltac:(lia)). lia.
    + intros j x Hx. unfold f in Hx. apply in_map_iff in Hx.
      destruct Hx as (i & <- & Hi). apply setBits_In in Hi. destruct Hi as [Hi _].
      pose proof (tableValue_bounds i Hi). lia.
    + intros j. lia.
  - apply Forall_forall. intros v Hv. apply in_flat_map in Hv.
    destruct Hv as (j & Hj & Hv). apply in_seq in Hj. unfold f in Hv.
    apply in_map_iff in Hv. destruct Hv as (i & <- & Hi).
    apply setBits_In in Hi. destruct Hi as [Hi _].
    pose proof (segment_word_range lowerBound sieveSize j i Hl Hs ltac:(lia) Hi). lia.
Qed.

Lemma generate_fed g sieve sieveSize w :
  execState (generate g sieve sieveSize) w
  = fed w (extractSieve 32 (getSegmentLow (base g) mod 2 ^ 32) sieve sieveSize).
Proof.
  unfold generate, GENERATE_PRIMES. rewrite wordLoop_fed. reflexivity.
Qed.

(** X8: the values [generate] hands to the finder are the primes of the
    current segment, as its comment says.  For a sieve array of bytes
    whose segment fits 32 bits, the finder receives, after what it
    held, one value [lowerBound + 240 j + bitValues[i]] for each set
    bit [i] of each 64-bit word [j], in strictly increasing order,
    all of them within [lowerBound + 7, lowerBound + sieveSize * 30 + 1]. *)
Theorem generate_values_in_segment (g : PrimeNumberGenerator.t)
    (sieve : list Z) (sieveSize : Z) (w : World)
    (Hb : Forall (fun b => 0 <= b <= 255) sieve)
    (Hs : 0 <= sieveSize)
    (Hfit : getSegmentLow (base g) mod 2 ^ 32 + 30 * sieveSize + 1 <= UINT32_MAX) :
  let lowerBound := getSegmentLow (base g) mod 2 ^ 32 in
  let values :=
    flat_map
      (fun j => map (fun i => lowerBound + 240 * Z.of_nat j + tableValue i)
                    (setBits (sieveWord (firstn (Z.to_nat sieveSize) sieve) j)))
      (seq 0 (Z.to_nat (sieveSize / 8))) in
  sievingPrimes (primeNumberFinder_ (execState (generate g sieve sieveSize) w))
  = sievingPrimes (primeNumberFinder_ w) ++ values
  /\ StronglySorted Z.lt values
  /\ Forall (fun v => lowerBound + 7 <= v <= lowerBound + 30 * sieveSize + 1) values.
Proof.
  intros lowerBound values.
  assert (0 <= lowerBound) as Hl by (apply Z.mod_pos_bound; lia).
  pose proof (extractSieve_exact lowerBound sieve sieveSize Hb Hl Hs Hfit) as E.
  fold values in E.
  pose proof (extractSieve_sorted lowerBound sieve sieveSize Hb Hl Hs Hfit) as [S R].
  rewrite E in S, R. rewrite generate_fed. fold lowerBound. rewrite E.
  split; [reflexivity|]. split; [exact S|exact R].
Qed.

Lemma generate_values_in_segment_witness :
  sievingPrimes
    (primeNumberFinder_
       (execState (generate (PrimeNumberGenerator.mk (SieveOfEratosthenes.mk 20 31622 16384 13 0))
                            [5; 0; 0; 0; 0; 0; 0; 128] 8)
                  (mkWorld (exampleFinder 1000000000) [])))
  = [7; 13; 241].
Proof.
  assert (Forall (fun b => 0 <= b <= 255) [5; 0; 0; 0; 0; 0; 0; 128]) as Hb
    by (repeat constructor; lia).
  exact (proj1 (generate_values_in_segment
                  (PrimeNumberGenerator.mk (SieveOfEratosthenes.mk 20 31622 16384 13 0))
                  [5; 0; 0; 0; 0; 0; 0; 128] 8
                  (mkWorld (exampleFinder 1000000000) [])
                  Hb ltac:(lia) ltac:(vm_compute; discriminate))).
Defined.

(** X9: over consecutive segments the finder receives its sieving
    primes in strictly increasing order: when the segment of a second
    call of [generate] starts [sieveSize * 30] above the segment of
    the first, the values of both calls together are strictly
    increasing. *)
Theorem generate_consecutive_segments (g1 g2 : PrimeNumberGenerator.t)
    (sieve1 sieve2 : list Z) (sieveSize : Z) (w : World)
    (Hb1 : Forall (fun b => 0 <= b <= 255) sieve1)
    (Hb2 : Forall (fun b => 0 <= b <= 255) sieve2)
    (Hs : 0 <= sieveSize)
    (Hlow : 0 <= getSegmentLow (base g1))
    (Hnext : getSegmentLow (base g2) = getSegmentLow (base g1) + 30 * sieveSize)
    (Hfit : getSegmentLow (base g2) + 30 * sieveSize + 1 <= UINT32_MAX) :
  exists values,
    sievingPrimes
      (primeNumberFinder_
         (execState (generate g2 sieve2 sieveSize)
                    (execState (generate g1 sieve1 sieveSize) w)))
    = sievingPrimes (primeNumberFinder_ w) ++ values
    /\ StronglySorted Z.lt values
    /\ Forall (fun v => getSegmentLow (base g1) + 7 <= v
                         <= getSegmentLow (base g2) + 30 * sieveSize + 1) values.
Proof.
  unfold UINT32_MAX in Hfit.
  assert (getSegmentLow (base g1) mod 2 ^ 32 = getSegmentLow (base g1)) as E1
    by (apply Z.mod_small; lia).
  assert (getSegmentLow (base g2) mod 2 ^ 32 = getSegmentLow (base g2)) as E2
    by (apply Z.mod_small; lia).
  destruct (extractSieve_sorted (getSegmentLow (base g1)) sieve1 sieveSize)
    as [S1 R1]; try assumption; try (unfold UINT32_MAX; lia).
  destruct (extractSieve_sorted (getSegmentLow (base g2)) sieve2 sieveSize)
    as [S2 R2]; try assumption; try (unfold UINT32_MAX; lia).
  exists (extractSieve 32 (getSegmentLow (base g1)) sieve1 sieveSize
          ++ extractSieve 32 (getSegmentLow (base g2)) sieve2 sieveSize).
  rewrite !generate_fed, E1, E2, fed_app. split; [reflexivity|].
  rewrite Forall_forall in R1, R2. split.
  - apply sorted_app; [exact S1|exact S2|].
    intros x y Hx Hy. specialize (R1 x Hx). specialize (R2 y Hy). lia.
  - apply Forall_forall. intros v Hv. apply in_app_or in Hv. destruct Hv as [Hv|Hv].
    + specialize (R1 v Hv). lia.
    + specialize (R2 v Hv). lia.
Qed.

Lemma generate_consecutive_segments_witness :
  exists values,
    sievingPrimes
      (primeNumberFinder_
         (execState (generate (PrimeNumberGenerator.mk (SieveOfEratosthenes.mk 20 31622 16384 13 240))
                              [0; 0; 0; 0; 0; 0; 0; 1] 8)
                    (execState (generate (PrimeNumberGenerator.mk (SieveOfEratosthenes.mk 20 31622 16384 13 0))
                                         [5; 0; 0; 0; 0; 0; 0; 128] 8)
                               (mkWorld (exampleFinder 1000000000) []))))
    = [] ++ values
    /\ StronglySorted Z.lt values.
Proof.
  assert (Forall (fun b => 0 <= b <= 255) [5; 0; 0; 0; 0; 0; 0; 128]) as Hb1
    by (repeat constructor; lia).
  assert (Forall (fun b => 0 <= b <= 255) [0; 0; 0; 0; 0; 0; 0; 1]) as Hb2
    by (repeat constructor; lia).
  destruct (generate_consecutive_segments
              (PrimeNumberGenerator.mk (SieveOfEratosthenes.mk 20 31622 16384 13 0))
              (PrimeNumberGenerator.mk (SieveOfEratosthenes.mk 20 31622 16384 13 240))
              [5; 0; 0; 0; 0; 0; 0; 128] [0; 0; 0; 0; 0; 0; 0; 1] 8
              (mkWorld (exampleFinder 1000000000) [])
              Hb1 Hb2 ltac:(lia) ltac:(cbn; lia) eq_refl ltac:(vm_compute; discriminate))
    as (values & H1 & H2 & _).
  exists values. split; [exact H1|exact H2].
Defined.

(** X10: the assertion of the constructor cannot fail for a finder
    whose stop number is a 64-bit integer: the stop number of the
    generator is its integer square root, which fits 32 bits; and the
    generator is built as soon as that square root is above the
    pre-sieve limit of the finder. *)
Theorem constructor_assertion_holds (defs : Defs) (f : PrimeNumberFinder)
    (Hstop : isWord64 (getStopNumber (finderBase f))) :
  PrimeNumberGenerator.new defs f <> AssertionFailure
  /\ isqrt (getStopNumber (finderBase f)) <= UINT32_MAX
  /\ (getPreSieveLimit (finderBase f) + 1 <= isqrt (getStopNumber (finderBase f)) ->
        exists g, PrimeNumberGenerator.new defs f = Constructed g).
Proof.
  pose proof (isqrt_word64 _ Hstop) as [_ Hle].
  assert (UINT32_MAX < UINT64_MAX) as Hmax by reflexivity.
  rewrite generator_new_cases.
  destruct (Z.ltb_spec (isqrt (getStopNumber (finderBase f)))
                       (getPreSieveLimit (finderBase f) + 1)) as [Hlt|Hge];
    cbn [orb].
  - split; [discriminate|]. split; [exact Hle|]. intros H. lia.
  - destruct (Z.ltb_spec UINT64_MAX (isqrt (getStopNumber (finderBase f)))); [lia|].
    destruct (Z.leb_spec (isqrt (getStopNumber (finderBase f))) UINT32_MAX); [|lia].
    split; [discriminate|]. split; [exact Hle|]. intros _. eauto.
Qed.

Lemma constructor_assertion_holds_witness :
  isWord64 (getStopNumber (finderBase (exampleFinder 18446744073709551615)))
  /\ PrimeNumberGenerator.new exampleDefs (exampleFinder 18446744073709551615)
     <> AssertionFailure.
Proof.
  assert (isWord64 (getStopNumber (finderBase (exampleFinder 18446744073709551615))))
    as H by (vm_compute; split; discriminate).
  split; [exact H|].
  exact (proj1 (constructor_assertion_holds exampleDefs
                  (exampleFinder 18446744073709551615) H)).
Defined.

End GeneratedValues.

(** ** The two wheel tables together, and edge cases *)

Section TablesTogether.
Import LookupTables Bits Wheel SieveOfEratosthenes PrimeNumberGenerator.

(** X11: each row of a wheel table clears every bit position equally
    often: in the row of a bit position [b], the entries whose mask
    is that of the bit [c] number phi(m) / 8, one for the modulus 30
    and six for the modulus 210. *)
Theorem wheel_row_clears_bits_evenly (m : Z) (wheel : list WheelElement) (b c : Z)
    (Hm : (m, wheel) = (30, wheel30) \/ (m, wheel) = (210, wheel210))
    (Hb : 0 <= b < 8) (Hc : 0 <= c < 8) :
  length (filter
            (fun k => optZ_eqb
                        (option_map (fun e => bitOf (unsetBit e))
                                    (transition wheel (stateIndex m b k)))
                        (Some c))
            (Zrange 0 (Z.to_nat (phi m))))
  = Z.to_nat (phi m / 8).
Proof.
  set (count := fun (m : Z) (wheel : list WheelElement) (b c : Z) =>
    length (filter
              (fun k => optZ_eqb
                          (option_map (fun e => bitOf (unsetBit e))
                                      (transition wheel (stateIndex m b k)))
                          (Some c))
              (Zrange 0 (Z.to_nat (phi m))))).
  assert (forallb (fun b => forallb (fun c => Nat.eqb (count m wheel b c)
                                                     (Z.to_nat (phi m / 8)))
                                    (Zrange 0 8))
                  (Zrange 0 8) = true) as H
    by (destruct Hm as [E|E]; injection E as -> ->; vm_compute; reflexivity).
  pose proof (Zrange_forallb _ _ _ H b ltac:(lia)) as H'. cbv beta in H'.
  pose proof (Zrange_forallb _ _ _ H' c ltac:(lia)) as H''. cbv beta in H''.
  apply Nat.eqb_eq in H''. exact H''.
Qed.

Lemma wheel_row_clears_bits_evenly_witness :
  length (filter
            (fun k => optZ_eqb
                        (option_map (fun e => bitOf (unsetBit e))
                                    (transition wheel210 (stateIndex 210 3 k)))
                        (Some 5))
            (Zrange 0 (Z.to_nat (phi 210))))
  = 6%nat.
Proof.
  exact (wheel_row_clears_bits_evenly 210 wheel210 3 5 (or_intror eq_refl)
           ltac:(lia) ltac:(lia)).
Defined.

(** X12: [wheelInit] and the wheel table work together.  A prime [p]
    on the wheel that starts at the quotient [q0] is first aligned by
    [wheelInit]; [n] crossing-off steps from the state so found reach
    the byte of the multiple [p * q'], where [q'] is the [(n+1)]-th
    integer coprime to the modulus from [q0] on. *)
Theorem wheelInit_then_walk (m : Z) (init : list WheelInit)
    (wheel : list WheelElement) (p q0 b : Z) (n : nat)
    (Hm : (m, init, wheel) = (30, wheel30Init, wheel30)
          \/ (m, init, wheel) = (210, wheel210Init, wheel210))
    (Hp : Z.gcd p 30 = 1) (Hb : bitIndexOf p = Some b) (Hq : 0 <= q0) :
  exists e q' k',
    initFor m init q0 = Some e
    /\ factorAfter wheel n (stateIndex m b (wheelIndexOfThatEligible e))
                   (q0 + offsetToNextEligible e) = Some q'
    /\ Z.gcd q' m = 1
    /\ length (filter (coprimeb m) (Zrange q0 (Z.to_nat (q' - q0 + 1)))) = S n
    /\ wheelIndexOf m q' = Some k'
    /\ crossOffSteps wheel (p / 30) n
         (byteIndex (p * (q0 + offsetToNextEligible e)),
          stateIndex m b (wheelIndexOfThatEligible e))
       = Some (byteIndex (p * q'), stateIndex m b k').
Proof.
  assert ((m, init) = (30, wheel30Init) \/ (m, init) = (210, wheel210Init)) as Hi
    by (destruct Hm as [E|E]; injection E as -> -> _; auto).
  assert ((m, wheel) = (30, wheel30) \/ (m, wheel) = (210, wheel210)) as Hw
    by (destruct Hm as [E|E]; injection E as -> _ ->; auto).
  assert (0 < m) as Hpos by (destruct Hm as [E|E]; injection E as -> _ _; lia).
  pose proof (Z.mod_pos_bound q0 m Hpos) as Hr.
  destruct (wheelInit_entries m init Hi (q0 mod m) Hr)
    as (e & He & Hoff & Hlt & Hco & Hmin & Hidx & Hres).
  apply coprimeb_true in Hco.
  pose proof (Z.div_mod q0 m ltac:(lia)) as Hdm.
  set (q := q0 + offsetToNextEligible e).
  assert (Z.gcd q m = 1) as G.
  { unfold q. replace (q0 + offsetToNextEligible e)
      with (q0 mod m + offsetToNextEligible e + (q0 / m) * m) by lia.
    now rewrite gcd_shift. }
  assert (wheelIndexOf m q = Some (wheelIndexOfThatEligible e)) as Hk.
  { unfold wheelIndexOf, q.
    replace ((q0 + offsetToNextEligible e) mod m)
      with (q0 mod m + offsetToNextEligible e).
    - apply at_indexOf; [apply wheelResidues_NoDup|exact Hres].
    - replace (q0 + offsetToNextEligible e)
        with (q0 mod m + offsetToNextEligible e + (q0 / m) * m) by lia.
      rewrite Z.mod_add by lia. symmetry. apply Z.mod_small. lia. }
  destruct (wheel_walk_steps m wheel p b n Hw Hp Hb q _ G Hk)
    as (q' & k' & Hfa & Hle & Hg' & Hcount & Hk' & Hsteps).
  exists e, q', k'. split; [exact He|]. split; [exact Hfa|]. split; [exact Hg'|].
  split; [|split; [exact Hk'|exact Hsteps]].
  replace (Z.to_nat (q' - q0 + 1))
    with (Z.to_nat (offsetToNextEligible e) + (1 + Z.to_nat (q' - q)))%nat
    by (unfold q; lia).
  rewrite Zrange_app, filter_app, length_app.
  rewrite filter_none.
  2:{ intros x Hx. apply Zrange_In in Hx.
      destruct (coprimeb m x) eqn:C; [|reflexivity].
      apply coprimeb_true in C.
      assert (coprimeb m (x - (q0 / m) * m) = false) as F.
      { apply negb_true_iff. apply (Zrange_forallb _ _ _ Hmin). lia. }
      replace x with (x - q0 / m * m + (q0 / m) * m) in C by lia.
      rewrite gcd_shift in C. apply coprimeb_true in C. congruence. }
  rewrite Zrange_app, filter_app, length_app.
  replace (q0 + Z.of_nat (Z.to_nat (offsetToNextEligible e))) with q
    by (unfold q; lia).
  change (Zrange q 1) with [q + Z.of_nat 0]. cbn [filter].
  replace (q + Z.of_nat 0) with q by lia.
  rewrite (proj2 (coprimeb_true m q) G).
  replace (q + Z.of_nat 1) with (q + 1) by lia.
  rewrite Hcount. reflexivity.
Qed.

Lemma wheelInit_then_walk_witness :
  exists e q' k',
    initFor 30 wheel30Init 8 = Some e
    /\ factorAfter wheel30 2 (stateIndex 30 0 (wheelIndexOfThatEligible e))
                   (8 + offsetToNextEligible e) = Some q'
    /\ crossOffSteps wheel30 (7 / 30) 2
         (byteIndex (7 * (8 + offsetToNextEligible e)),
          stateIndex 30 0 (wheelIndexOfThatEligible e))
       = Some (byteIndex (7 * q'), stateIndex 30 0 k').
Proof.
  destruct (wheelInit_then_walk 30 wheel30Init wheel30 7 8 0 2
              (or_introl eq_refl) eq_refl eq_refl ltac:(lia))
    as (e & q' & k' & H1 & H2 & _ & _ & _ & H6).
  exists e, q', k'. split; [exact H1|]. split; [exact H2|exact H6].
Defined.

Lemma sieveWord_zero sieve j :
  Forall (fun b => b = 0) sieve -> sieveWord sieve j = 0.
Proof.
  intros Hz. unfold sieveWord.
  assert (Forall (fun b => b = 0) (firstn 8 (skipn (8 * j) sieve))) as H.
  { apply Forall_forall. intros b Hin. rewrite Forall_forall in Hz.
    apply Hz. eapply In_skipn, In_firstn, Hin. }
  induction H as [|b l Hb Hl IH]; cbn [fold_right]; [reflexivity|].
  rewrite IH, Hb. reflexivity.
Qed.

(** X13: a sieve array without a set bit, an empty one included, gives
    the finder nothing: [generate] leaves the finder and the consumer
    as they are. *)
Theorem generate_zero_sieve (g : PrimeNumberGenerator.t)
    (sieve : list Z) (sieveSize : Z) (w : World)
    (Hz : Forall (fun b => b = 0) sieve) :
  execState (generate g sieve sieveSize) w = w
  /\ execState (analyseSieve g sieve sieveSize) w = w.
Proof.
  assert (execState (generate g sieve sieveSize) w = w) as E.
  { rewrite generate_fed. unfold extractSieve.
    assert (forall l, flat_map
              (fun j => map (fun p => p mod 2 ^ 32)
                            (extractWord 64 (getSegmentLow (base g) mod 2 ^ 32
                                             + 240 * Z.of_nat j)
                                         (sieveWord (firstn (Z.to_nat sieveSize) sieve) j)))
              l = []) as N.
    { induction l as [|j l IH]; cbn [flat_map]; [reflexivity|].
      rewrite IH, sieveWord_zero; [reflexivity|].
      apply Forall_forall. intros b Hb. rewrite Forall_forall in Hz.
      apply Hz. eapply In_firstn, Hb. }
    rewrite N. apply fed_nil. }
  split; [exact E|exact E].
Qed.

Lemma generate_zero_sieve_witness :
  execState (generate (PrimeNumberGenerator.mk (SieveOfEratosthenes.mk 20 31622 16384 13 0))
                      [0; 0; 0; 0; 0; 0; 0; 0] 8)
            (mkWorld (exampleFinder 1000000000) [3; 5])
  = mkWorld (exampleFinder 1000000000) [3; 5].
Proof.
  assert (Forall (fun b => b = 0) [0; 0; 0; 0; 0; 0; 0; 0]) as Hz
    by (repeat constructor).
  exact (proj1 (generate_zero_sieve
                  (PrimeNumberGenerator.mk (SieveOfEratosthenes.mk 20 31622 16384 13 0))
                  [0; 0; 0; 0; 0; 0; 0; 0] 8
                  (mkWorld (exampleFinder 1000000000) [3; 5]) Hz)).
Defined.

End TablesTogether.
